(** * TextTube: the browser-side controller [static/script.js]

    A shallow embedding of the script: the progress-text interpreter
    [parseProgress] with the two regular expressions it uses, the JavaScript
    numbers it computes with, and the session state with its handlers
    ([resetState], [showError], [updateUI], [handleTranscription],
    [checkProgress], [startProgressChecking] and the event listeners). *)

From Stdlib Require Import ZArith NArith QArith Lia Lqa List Bool String Ascii.
From Stdlib Require Import SpecFloat.
From Stdlib Require Import Relations.
Import ListNotations.

Local Open Scope Z_scope.

(** ** JavaScript strings

    A JavaScript string is a sequence of UTF-16 code units. *)

Module JsString.

Definition code_unit := N.
Definition str := list code_unit.

(** A string literal of the script (all of them are ASCII). *)
Definition js (s : string) : str := map N_of_ascii (list_ascii_of_string s).

(** [String.prototype.startsWith], used to define [includes]. *)
Fixpoint startsWith (needle hay : str) : bool :=
  match needle, hay with
  | [], _ => true
  | _ :: _, [] => false
  | a :: needle', b :: hay' => N.eqb a b && startsWith needle' hay'
  end.

(** [String.prototype.includes]: case-sensitive containment of [needle] as a
    contiguous run of code units of [hay]. *)
Fixpoint includes (needle hay : str) : bool :=
  startsWith needle hay ||
  match hay with
  | [] => false
  | _ :: hay' => includes needle hay'
  end.

(** The code units [String.prototype.trim] strips: WhiteSpace and
    LineTerminator of ECMA-262 (all of them are in the basic plane). *)
Definition is_space (c : code_unit) : bool :=
  let c := Z.of_N c in
  (9 <=? c) && (c <=? 13) || (c =? 32) || (c =? 160) || (c =? 5760)
  || (8192 <=? c) && (c <=? 8202) || (c =? 8232) || (c =? 8233)
  || (c =? 8239) || (c =? 8287) || (c =? 12288) || (c =? 65279).

Fixpoint trimStart (s : str) : str :=
  match s with
  | c :: s' => if is_space c then trimStart s' else s
  | [] => []
  end.

Definition trimEnd (s : str) : str := rev (trimStart (rev s)).

Definition trim (s : str) : str := trimEnd (trimStart s).

(** [a === b] on strings. *)
Fixpoint eqb (a b : str) : bool :=
  match a, b with
  | [], [] => true
  | x :: a', y :: b' => N.eqb x y && eqb a' b'
  | _, _ => false
  end.

(** Truthiness of a string: every string but the empty one. *)
Definition truthy (s : str) : bool :=
  match s with [] => false | _ :: _ => true end.

(** [a || b] on strings. *)
Definition or_else (a b : str) : str := if truthy a then a else b.

End JsString.
Import JsString.

(** ** The regular expressions of the script

    Both patterns, [/(\d+)%/] and [/part (\d+) of (\d+)/], are sequences of
    literal characters and capturing groups [(\d+)]. *)

Module Regex.

Inductive token :=
| Lit (c : code_unit)   (* a literal character *)
| Digits.               (* the capturing group (\d+) *)

Definition pattern := list token.

(** [\d] is the class [0-9]. *)
Definition is_digit (c : code_unit) : bool :=
  (48 <=? c)%N && (c <=? 57)%N.

(** [(\d+)] followed by the continuation [k]: greedy, giving digits back one
    at a time while the continuation fails.  The result lists the captures,
    this group's first. *)
Fixpoint digits_then (k : str -> option (list str)) (s : str)
  : option (list str) :=
  match s with
  | c :: s' =>
      if is_digit c then
        match digits_then k s' with
        | Some (cap :: caps) => Some ((c :: cap) :: caps)
        | _ => option_map (cons [c]) (k s')
        end
      else None
  | [] => None
  end.

(** The pattern matched at the start of [s]. *)
Fixpoint exec_at (p : pattern) (s : str) : option (list str) :=
  match p with
  | [] => Some []
  | Lit c :: p' =>
      match s with
      | c' :: s' => if N.eqb c c' then exec_at p' s' else None
      | [] => None
      end
  | Digits :: p' => digits_then (exec_at p') s
  end.

(** [String.prototype.match] with a non-global pattern: the captures of the
    leftmost match, or [None] for [null]. *)
Fixpoint regex_match (p : pattern) (s : str) : option (list str) :=
  match exec_at p s with
  | Some caps => Some caps
  | None =>
      match s with
      | [] => None
      | _ :: s' => regex_match p s'
      end
  end.

Definition lits (s : string) : pattern := map Lit (js s).

(** [/(\d+)%/] *)
Definition re_percent : pattern := Digits :: lits "%".

(** [/part (\d+) of (\d+)/] *)
Definition re_part : pattern :=
  lits "part " ++ Digits :: lits " of " ++ [Digits].

End Regex.
Import Regex.

(** ** JavaScript numbers

    A Number is an IEEE 754 binary64 value.  A finite one is kept by its exact
    rational value; every arithmetic operation is the exact operation on
    rationals followed by rounding to the nearest double, ties to even, which
    is how IEEE 754 defines it.  Zero is kept unsigned: the script never
    produces a negative value, hence never [-0]. *)

Module Number.

Inductive number :=
| Fin (q : Q)            (* a finite double, by its value *)
| Inf (negative : bool)  (* Infinity and -Infinity *)
| NaN.

(** [a / b] rounded to the nearest integer, ties to even ([0 < b]). *)
Definition rne_div (a b : Z) : Z :=
  let f := a / b in
  match (2 * (a mod b) ?= b) with
  | Lt => f
  | Gt => f + 1
  | Eq => if Z.even f then f else f + 1
  end.

(** Every finite double is an integer multiple of [2^-1074], so rounding
    works on [x = n / d] counted in that unit: the doubles are the integers
    [m * 2^e] with a significand [m] of at most 53 bits and [0 <= e]. *)
Definition unit_exp : Z := 1074.

(** The exponent of the last place kept: 53 significant bits of [x]. *)
Definition ulp_exp (n d : Z) : Z :=
  Z.max (Z.log2 (n * 2 ^ unit_exp / d) - 52) 0.

(** The significand: [x / 2^e] rounded to an integer. *)
Definition significand (n d : Z) : Z :=
  rne_div (n * 2 ^ unit_exp) (d * 2 ^ ulp_exp n d).

(** The rational of [v] units, in lowest terms. *)
Definition of_units (v : Z) : Q := Qred (Qmake v (Z.to_pos (2 ^ unit_exp))).

(** The double nearest to [n / d], in units. *)
Definition units (n d : Z) : Z := significand n d * 2 ^ ulp_exp n d.

(** Rounding of a positive rational [n / d]; a result of [2^1024] or more
    overflows to [Infinity]. *)
Definition round_pos (n d : Z) : number :=
  if 2 ^ (1024 + unit_exp) <=? units n d then Inf false
  else Fin (of_units (units n d)).

Definition neg (x : number) : number :=
  match x with
  | Fin q => Fin (Qred (- q))
  | Inf s => Inf (negb s)
  | NaN => NaN
  end.

(** The double nearest to the rational [q]. *)
Definition round64 (q : Q) : number :=
  match Qnum q ?= 0 with
  | Eq => Fin 0
  | Gt => round_pos (Qnum q) (Zpos (Qden q))
  | Lt => neg (round_pos (- Qnum q) (Zpos (Qden q)))
  end.

Definition is_neg (q : Q) : bool := Qnum q <? 0.
Definition is_zero (q : Q) : bool := Qnum q =? 0.

(** [x + y] *)
Definition add (x y : number) : number :=
  match x, y with
  | NaN, _ | _, NaN => NaN
  | Inf a, Inf b => if Bool.eqb a b then Inf a else NaN
  | Inf a, Fin _ | Fin _, Inf a => Inf a
  | Fin a, Fin b => round64 (a + b)
  end.

(** [x * y] *)
Definition mul (x y : number) : number :=
  match x, y with
  | NaN, _ | _, NaN => NaN
  | Inf a, Inf b => Inf (xorb a b)
  | Inf a, Fin q | Fin q, Inf a =>
      if is_zero q then NaN else Inf (xorb a (is_neg q))
  | Fin a, Fin b => round64 (a * b)
  end.

(** [x / y] *)
Definition div (x y : number) : number :=
  match x, y with
  | NaN, _ | _, NaN => NaN
  | Inf _, Inf _ => NaN
  | Inf a, Fin q => Inf (xorb a (is_neg q))
  | Fin _, Inf _ => Fin 0
  | Fin a, Fin b =>
      if is_zero b then (if is_zero a then NaN else Inf (is_neg a))
      else round64 (a / b)
  end.

(** Truthiness of a number: every number but zero and NaN. *)
Definition truthy (x : number) : bool :=
  match x with
  | Fin q => negb (is_zero q)
  | Inf _ => true
  | NaN => false
  end.

(** [x || y] on numbers. *)
Definition or_else (x y : number) : number := if truthy x then x else y.

(** The number of an integer literal of the script. *)
Definition lit (n : Z) : number := Fin (inject_Z n).

(** The value of a run of decimal digits, most significant first. *)
Definition digit_val (c : code_unit) : Z := Z.of_N c - 48.

Definition decimal (ds : str) : Z :=
  fold_left (fun acc c => 10 * acc + digit_val c) ds 0.

(** [parseInt] on a non-empty run of decimal digits: the integer it spells,
    as a Number (the nearest double when it has more than 53 bits). *)
Definition parseInt (ds : str) : number := round64 (inject_Z (decimal ds)).

(** Predicates on numbers the properties are stated with. *)
Definition is_integer (x : number) : Prop :=
  exists n : Z, x = Fin (inject_Z n).

Definition between (lo hi : Q) (x : number) : Prop :=
  exists q : Q, x = Fin q /\ (lo <= q)%Q /\ (q <= hi)%Q.

Definition at_most (hi : Q) (x : number) : Prop :=
  exists q : Q, x = Fin q /\ (q <= hi)%Q.

Definition is_finite (x : number) : Prop := exists q : Q, x = Fin q.

(** [x <= y]; never so for [NaN]. *)
Definition le (x y : number) : Prop :=
  match x, y with
  | Fin a, Fin b => (a <= b)%Q
  | Fin _, Inf s => s = false
  | Inf s, Fin _ => s = true
  | Inf s, Inf t => s = true \/ t = false
  | _, _ => False
  end.

End Number.
Import Number.

(** ** The progress-text interpreter *)

(** [parseProgress(progressText)], lines 41-60 of the script.  [match[1]] and
    the destructured [current] and [total] are the captured digit runs. *)
Definition parseProgress (progressText : str) : number :=
  if includes (js "%") progressText then
    match regex_match re_percent progressText with
    | Some (d :: _) => parseInt d
    | Some [] => NaN
    | None => lit 0
    end
  else if includes (js "Starting") progressText then lit 5
  else if includes (js "download") progressText then lit 20
  else if includes (js "Processing") progressText then lit 40
  else
    match
      (if includes (js "Transcribing") progressText
       then regex_match re_part progressText else None)
    with
    | Some (current :: total :: _) =>
        add (lit 40) (mul (div (parseInt current) (parseInt total)) (lit 50))
    | Some _ => NaN
    | None =>
        if includes (js "completed") progressText then lit 100 else lit 0
    end.

(** ** Session state, page elements and the browser

    The module-level variables of the script, the properties of the page
    elements it reads and writes, and what the browser keeps for it: the
    active interval timers, the requests issued and the asynchronous
    functions suspended at an [await]. *)

Module Session.

Definition timer_id := positive.

(** The payload of a response, section 6 of the specification: every field
    is optional; an absent [finished] is kept as [false]. *)
Record report := {
  progress : option str;
  transcription : option str;
  finished : bool;
  error : option str
}.

(** How an awaited [fetch] (with the [response.json()] after it) settles. *)
Inductive settled :=
| Rejected (message : str)             (* the promise rejects with an Error *)
| Response (ok : bool) (data : report). (* a response, [response.ok], its JSON *)

Inductive request :=
| PostTranscribe (video_url model_size : str)
| GetProgress
| PostCleanup.

(** Where a suspended asynchronous function resumes. *)
Inductive continuation :=
| K_transcribe               (* handleTranscription, after line 81 *)
| K_progress                 (* checkProgress, after line 100 *)
| K_cleanup (data : report)  (* checkProgress, after line 130 *)
| K_unload.                  (* the beforeunload listener, after line 180 *)

Record world := {
  isTranscribing : bool;
  progressInterval : option timer_id;
  transcribeButton_disabled : bool;
  urlInput_disabled : bool;
  urlInput_value : str;
  model_checked : option str;
  progressBar_value : number;
  progressText_textContent : str;
  progressText_color : str;
  transcriptionOutput_value : str;
  timers : list timer_id;
  next_timer : timer_id;
  sent : list request;
  pending : list continuation
}.

Definition set_isTranscribing (v : bool) (w : world) : world :=
  {| isTranscribing := v; progressInterval := progressInterval w;
     transcribeButton_disabled := transcribeButton_disabled w;
     urlInput_disabled := urlInput_disabled w; urlInput_value := urlInput_value w;
     model_checked := model_checked w; progressBar_value := progressBar_value w;
     progressText_textContent := progressText_textContent w;
     progressText_color := progressText_color w;
     transcriptionOutput_value := transcriptionOutput_value w;
     timers := timers w; next_timer := next_timer w; sent := sent w;
     pending := pending w |}.

Definition set_progressInterval (v : option timer_id) (w : world) : world :=
  {| isTranscribing := isTranscribing w; progressInterval := v;
     transcribeButton_disabled := transcribeButton_disabled w;
     urlInput_disabled := urlInput_disabled w; urlInput_value := urlInput_value w;
     model_checked := model_checked w; progressBar_value := progressBar_value w;
     progressText_textContent := progressText_textContent w;
     progressText_color := progressText_color w;
     transcriptionOutput_value := transcriptionOutput_value w;
     timers := timers w; next_timer := next_timer w; sent := sent w;
     pending := pending w |}.

Definition set_transcribeButton_disabled (v : bool) (w : world) : world :=
  {| isTranscribing := isTranscribing w; progressInterval := progressInterval w;
     transcribeButton_disabled := v;
     urlInput_disabled := urlInput_disabled w; urlInput_value := urlInput_value w;
     model_checked := model_checked w; progressBar_value := progressBar_value w;
     progressText_textContent := progressText_textContent w;
     progressText_color := progressText_color w;
     transcriptionOutput_value := transcriptionOutput_value w;
     timers := timers w; next_timer := next_timer w; sent := sent w;
     pending := pending w |}.

Definition set_urlInput_disabled (v : bool) (w : world) : world :=
  {| isTranscribing := isTranscribing w; progressInterval := progressInterval w;
     transcribeButton_disabled := transcribeButton_disabled w;
     urlInput_disabled := v; urlInput_value := urlInput_value w;
     model_checked := model_checked w; progressBar_value := progressBar_value w;
     progressText_textContent := progressText_textContent w;
     progressText_color := progressText_color w;
     transcriptionOutput_value := transcriptionOutput_value w;
     timers := timers w; next_timer := next_timer w; sent := sent w;
     pending := pending w |}.

Definition set_form (url : str) (model : option str) (w : world) : world :=
  {| isTranscribing := isTranscribing w; progressInterval := progressInterval w;
     transcribeButton_disabled := transcribeButton_disabled w;
     urlInput_disabled := urlInput_disabled w; urlInput_value := url;
     model_checked := model; progressBar_value := progressBar_value w;
     progressText_textContent := progressText_textContent w;
     progressText_color := progressText_color w;
     transcriptionOutput_value := transcriptionOutput_value w;
     timers := timers w; next_timer := next_timer w; sent := sent w;
     pending := pending w |}.

Definition set_progressBar_value (v : number) (w : world) : world :=
  {| isTranscribing := isTranscribing w; progressInterval := progressInterval w;
     transcribeButton_disabled := transcribeButton_disabled w;
     urlInput_disabled := urlInput_disabled w; urlInput_value := urlInput_value w;
     model_checked := model_checked w; progressBar_value := v;
     progressText_textContent := progressText_textContent w;
     progressText_color := progressText_color w;
     transcriptionOutput_value := transcriptionOutput_value w;
     timers := timers w; next_timer := next_timer w; sent := sent w;
     pending := pending w |}.

Definition set_progressText_textContent (v : str) (w : world) : world :=
  {| isTranscribing := isTranscribing w; progressInterval := progressInterval w;
     transcribeButton_disabled := transcribeButton_disabled w;
     urlInput_disabled := urlInput_disabled w; urlInput_value := urlInput_value w;
     model_checked := model_checked w; progressBar_value := progressBar_value w;
     progressText_textContent := v;
     progressText_color := progressText_color w;
     transcriptionOutput_value := transcriptionOutput_value w;
     timers := timers w; next_timer := next_timer w; sent := sent w;
     pending := pending w |}.

Definition set_progressText_color (v : str) (w : world) : world :=
  {| isTranscribing := isTranscribing w; progressInterval := progressInterval w;
     transcribeButton_disabled := transcribeButton_disabled w;
     urlInput_disabled := urlInput_disabled w; urlInput_value := urlInput_value w;
     model_checked := model_checked w; progressBar_value := progressBar_value w;
     progressText_textContent := progressText_textContent w;
     progressText_color := v;
     transcriptionOutput_value := transcriptionOutput_value w;
     timers := timers w; next_timer := next_timer w; sent := sent w;
     pending := pending w |}.

Definition set_transcriptionOutput_value (v : str) (w : world) : world :=
  {| isTranscribing := isTranscribing w; progressInterval := progressInterval w;
     transcribeButton_disabled := transcribeButton_disabled w;
     urlInput_disabled := urlInput_disabled w; urlInput_value := urlInput_value w;
     model_checked := model_checked w; progressBar_value := progressBar_value w;
     progressText_textContent := progressText_textContent w;
     progressText_color := progressText_color w;
     transcriptionOutput_value := v;
     timers := timers w; next_timer := next_timer w; sent := sent w;
     pending := pending w |}.

Definition set_timers (v : list timer_id) (n : timer_id) (w : world) : world :=
  {| isTranscribing := isTranscribing w; progressInterval := progressInterval w;
     transcribeButton_disabled := transcribeButton_disabled w;
     urlInput_disabled := urlInput_disabled w; urlInput_value := urlInput_value w;
     model_checked := model_checked w; progressBar_value := progressBar_value w;
     progressText_textContent := progressText_textContent w;
     progressText_color := progressText_color w;
     transcriptionOutput_value := transcriptionOutput_value w;
     timers := v; next_timer := n; sent := sent w;
     pending := pending w |}.

Definition set_network (s : list request) (p : list continuation) (w : world)
  : world :=
  {| isTranscribing := isTranscribing w; progressInterval := progressInterval w;
     transcribeButton_disabled := transcribeButton_disabled w;
     urlInput_disabled := urlInput_disabled w; urlInput_value := urlInput_value w;
     model_checked := model_checked w; progressBar_value := progressBar_value w;
     progressText_textContent := progressText_textContent w;
     progressText_color := progressText_color w;
     transcriptionOutput_value := transcriptionOutput_value w;
     timers := timers w; next_timer := next_timer w; sent := s;
     pending := p |}.

(** *** What the browser does for the script *)

(** [clearInterval(t)]: the timer stops; an unknown handle is ignored. *)
Definition clearInterval (t : timer_id) (w : world) : world :=
  set_timers (filter (fun t' => negb (Pos.eqb t t')) (timers w)) (next_timer w) w.

(** [setInterval(checkProgress, 1000)]: a new timer under a fresh handle,
    which is returned.  Handles are positive integers, so always truthy. *)
Definition setInterval (w : world) : timer_id * world :=
  (next_timer w,
   set_timers (next_timer w :: timers w) (Pos.succ (next_timer w)) w).

(** [fetch(...)] up to the [await]: the request leaves and the calling
    function is suspended at [k]. *)
Definition fetch (r : request) (k : continuation) (w : world) : world :=
  set_network (r :: sent w) (k :: pending w) w.

(** Truthiness of an optional string field, and its text. *)
Definition field_truthy (f : option str) : bool :=
  match f with Some s => JsString.truthy s | None => false end.

Definition field_text (f : option str) : str :=
  match f with Some s => s | None => [] end.

(** What a [try] block ends with. *)
Inductive completion :=
| Normal (w : world)
| Throw (message : str) (w : world).

(** [try { body } catch (error) { handler(error.message) }] *)
Definition try_catch (body : completion) (handler : str -> world -> world)
  : world :=
  match body with
  | Normal w => w
  | Throw message w => handler message w
  end.

(** *** Utility functions, lines 15-39 *)

(** The object literal passed to [updateUI]. *)
Record ui_state := {
  ui_isTranscribing : bool;
  ui_progress : number;
  ui_message : str;
  ui_transcription : option str
}.

Definition updateUI (state : ui_state) (w : world) : world :=
  let w := set_transcribeButton_disabled (ui_isTranscribing state) w in
  let w := set_urlInput_disabled (ui_isTranscribing state) w in
  let w := set_progressBar_value (Number.or_else (ui_progress state) (lit 0)) w in
  let w := set_progressText_textContent (JsString.or_else (ui_message state) []) w in
  if field_truthy (ui_transcription state)
  then set_transcriptionOutput_value (field_text (ui_transcription state)) w
  else w.

Definition resetState (w : world) : world :=
  let w := set_isTranscribing false w in
  let w :=
    match progressInterval w with
    | Some t => set_progressInterval None (clearInterval t w)
    | None => w
    end in
  let w := set_transcribeButton_disabled false w in
  set_urlInput_disabled false w.

Definition showError (message : str) (w : world) : world :=
  let w := set_progressText_textContent (js "Error: " ++ message) w in
  let w := set_progressText_color (js "red") w in
  resetState w.

(** *** Progress checking, lines 97-149 *)

Definition startProgressChecking (w : world) : world :=
  let w :=
    match progressInterval w with
    | Some t => clearInterval t w
    | None => w
    end in
  let (t, w) := setInterval w in
  set_progressInterval (Some t) w.

(** The [catch] block of [checkProgress]. *)
Definition checkProgress_catch (message : str) (w : world) : world :=
  showError (JsString.or_else message (js "Error checking progress")) w.

(** [checkProgress] up to its first [await]. *)
Definition checkProgress (w : world) : world := fetch GetProgress K_progress w.

(** Lines 133-136. *)
Definition checkProgress_errors (data : report) (w : world) : completion :=
  if field_truthy (error data) then Throw (field_text (error data)) w
  else Normal w.

(** The completion condition of line 120. *)
Definition completion_signal (data : report) : bool :=
  finished data
  || field_truthy (progress data)
     && includes (js "completed") (field_text (progress data)).

(** [checkProgress] from the response to the status request on: to the end,
    or to the [await] of the cleanup request. *)
Definition checkProgress_response (r : settled) (w : world) : world :=
  try_catch
    match r with
    | Rejected message => Throw message w
    | Response ok data =>
        if negb ok then
          Throw (JsString.or_else (field_text (error data))
                   (js "Failed to check progress")) w
        else
          let w :=
            if field_truthy (progress data) then
              updateUI {| ui_isTranscribing := true;
                          ui_progress := parseProgress (field_text (progress data));
                          ui_message := field_text (progress data);
                          ui_transcription := transcription data |} w
            else w in
          if completion_signal data then
            let w := updateUI {| ui_isTranscribing := false;
                                 ui_progress := lit 100;
                                 ui_message := js "Transcription completed!";
                                 ui_transcription := transcription data |} w in
            let w := resetState w in
            Normal (fetch PostCleanup (K_cleanup data) w)
          else checkProgress_errors data w
    end
    checkProgress_catch.

(** [checkProgress] from the settling of the cleanup request on. *)
Definition checkProgress_cleaned (data : report) (r : settled) (w : world)
  : world :=
  try_catch
    match r with
    | Rejected message => Throw message w
    | Response _ _ => checkProgress_errors data w
    end
    checkProgress_catch.

(** *** The transcription handler, lines 63-94 *)

Definition handleTranscription_catch (message : str) (w : world) : world :=
  showError (JsString.or_else message (js "Failed to start transcription")) w.

(** [handleTranscription] up to its first [await]. *)
Definition handleTranscription (url model : str) (w : world) : world :=
  let w := set_isTranscribing true w in
  let w := updateUI {| ui_isTranscribing := true;
                       ui_progress := lit 0;
                       ui_message := js "Starting transcription...";
                       ui_transcription := None |} w in
  fetch (PostTranscribe url model) K_transcribe w.

(** [handleTranscription] from the response on. *)
Definition handleTranscription_response (r : settled) (w : world) : world :=
  try_catch
    match r with
    | Rejected message => Throw message w
    | Response ok data =>
        if negb ok then
          Throw (JsString.or_else (field_text (error data))
                   (js "Failed to start transcription")) w
        else Normal (startProgressChecking w)
    end
    handleTranscription_catch.

(** *** Event listeners, lines 152-185 *)

(** The click listener of the button. *)
Definition on_click (w : world) : world :=
  let url := trim (urlInput_value w) in
  let model := JsString.or_else (field_text (model_checked w)) (js "base") in
  if negb (JsString.truthy url) then
    showError (js "Please enter a YouTube URL") w
  else if negb (includes (js "youtube.com/") url)
          && negb (includes (js "youtu.be/") url) then
    showError (js "Please enter a valid YouTube URL") w
  else handleTranscription url model w.

(** [elements.transcribeButton.click()], and a click of the user: a disabled
    button dispatches no click event. *)
Definition click (w : world) : world :=
  if transcribeButton_disabled w then w else on_click w.

(** The keypress listener of the URL input. *)
Definition on_keypress (key : str) (w : world) : world :=
  if JsString.eqb key (js "Enter") && negb (isTranscribing w)
  then click w else w.

(** The beforeunload listener, up to its [await]. *)
Definition on_beforeunload (w : world) : world :=
  if isTranscribing w then fetch PostCleanup K_unload w else w.

(** A suspended function resumes when its request settles. *)
Definition resume (k : continuation) (r : settled) (w : world) : world :=
  match k with
  | K_transcribe => handleTranscription_response r w
  | K_progress => checkProgress_response r w
  | K_cleanup data => checkProgress_cleaned data r w
  | K_unload => w
  end.

(** *** The event loop

    One step runs one listener, timer callback or resumed function to its
    next [await].  The user may edit the form between steps. *)
Inductive step : world -> world -> Prop :=
| step_edit w url model :
    step w (set_form url model w)
| step_click w :
    step w (click w)
| step_keypress w key :
    step w (on_keypress key w)
| step_tick w t :
    In t (timers w) ->
    step w (checkProgress w)
| step_settle w k r before after :
    pending w = before ++ k :: after ->
    step w (resume k r (set_network (sent w) (before ++ after) w))
| step_unload w :
    step w (on_beforeunload w).

(** The page when the script has been loaded: nothing transcribing, no timer,
    no request. *)
Definition loaded (w : world) : Prop :=
  isTranscribing w = false /\ progressInterval w = None /\
  timers w = [] /\ sent w = [] /\ pending w = [].

Definition reachable (w : world) : Prop :=
  exists w0, loaded w0 /\ clos_refl_trans world step w0 w.

(** The timers the session has running. *)
Definition own_timer (w : world) : list timer_id :=
  match progressInterval w with Some t => [t] | None => [] end.

(** No timer is running unknown to the session, and handles to come are new. *)
Definition timer_inv (w : world) : Prop :=
  timers w = own_timer w /\ Forall (fun t => (t < next_timer w)%positive) (timers w).

(** A page as loaded, for examples. *)
Definition blank : world :=
  {| isTranscribing := false; progressInterval := None;
     transcribeButton_disabled := false; urlInput_disabled := false;
     urlInput_value := []; model_checked := None;
     progressBar_value := lit 0; progressText_textContent := [];
     progressText_color := []; transcriptionOutput_value := [];
     timers := []; next_timer := 1%positive; sent := []; pending := [] |}.

End Session.
Import Session.

(** ** Auxiliary notions for the statements *)

(** The longest run of digits [s] starts with, and what follows it. *)
Fixpoint digit_run (s : str) : str * str :=
  match s with
  | c :: s' =>
      if is_digit c then let (ds, rest) := digit_run s' in (c :: ds, rest)
      else ([], s)
  | [] => ([], [])
  end.

(** The last code unit of [s] is a digit. *)
Definition ends_with_digit (s : str) : bool :=
  match rev s with
  | c :: _ => is_digit c
  | [] => false
  end.

(** [s] has a digit immediately followed by a percent sign. *)
Definition has_digit_percent (s : str) : Prop :=
  exists pre c post, s = pre ++ c :: js "%" ++ post /\ is_digit c = true.

(** [m] is a text the pattern [p] describes, with the captures [caps]:
    the literals as they are, a non-empty run of digits for each group. *)
Inductive instance : pattern -> list str -> str -> Prop :=
| instance_nil : instance [] [] []
| instance_lit c p caps m :
    instance p caps m -> instance (Lit c :: p) caps (c :: m)
| instance_digits ds p caps m :
    ds <> [] -> forallb is_digit ds = true -> instance p caps m ->
    instance (Digits :: p) (ds :: caps) (ds ++ m).

(** [s] has the text [part X of Y] in it, for the digit runs [xs] and [ys]. *)
Definition has_part (xs ys s : str) : Prop :=
  exists pre post,
    s = pre ++ js "part " ++ xs ++ js " of " ++ ys ++ post /\
    xs <> [] /\ forallb is_digit xs = true /\
    ys <> [] /\ forallb is_digit ys = true.

(** None of the rules before the [Transcribing] rule applies to [s]. *)
Definition reaches_transcribing (s : str) : bool :=
  negb (includes (js "%") s) && negb (includes (js "Starting") s)
  && negb (includes (js "download") s) && negb (includes (js "Processing") s).

(** The rule of lines 51-56 is the one that returns: the captures of its
    pattern, [current] and [total]. *)
Definition part_rule (s : str) : option (str * str) :=
  if reaches_transcribing s && includes (js "Transcribing") s then
    match regex_match re_part s with
    | Some (current :: total :: _) => Some (current, total)
    | _ => None
    end
  else None.

(** The expression of line 55 on the two captures. *)
Definition part_value (current total : str) : number :=
  add (lit 40) (mul (div (parseInt current) (parseInt total)) (lit 50)).

(** What a world shows after [showError message]. *)
Definition shows_error (message : str) (w : world) : Prop :=
  progressText_textContent w = js "Error: " ++ message /\
  progressText_color w = js "red" /\
  isTranscribing w = false /\ progressInterval w = None /\
  transcribeButton_disabled w = false /\ urlInput_disabled w = false.

(** A session for examples: a URL typed into the form, the button clicked,
    the server accepting, and the first tick of the timer. *)
Definition demo_report : report :=
  {| progress := None; transcription := None; finished := false; error := None |}.

Definition demo_form : world := set_form (js "https://youtu.be/abc") None blank.

Definition demo_submitted : world := click demo_form.

Definition demo_polling : world :=
  resume K_transcribe (Response true demo_report)
    (set_network (sent demo_submitted) [] demo_submitted).

Definition demo_ticked : world := checkProgress demo_polling.

(** [x] is no negative number: [NaN], [Infinity] or a finite value from 0. *)
Definition nonneg (x : number) : Prop :=
  match x with
  | Fin q => (0 <= q)%Q
  | Inf s => s = false
  | NaN => True
  end.

(** [x] is a number the progress bar can show: not [NaN], not negative. *)
Definition bar_ok (x : number) : Prop :=
  match x with
  | Fin q => (0 <= q)%Q
  | Inf s => s = false
  | NaN => False
  end.

(** A URL the click listener lets through. *)
Definition valid_url (url : str) : Prop :=
  url <> [] /\
  (includes (js "youtube.com/") url = true \/ includes (js "youtu.be/") url = true).

(** What no handler undoes on the page: a transcription once shown is not
    emptied, the red colour is not taken back, and the bar keeps a value it
    can show. *)
Definition display_kept (w w' : world) : Prop :=
  (transcriptionOutput_value w <> [] -> transcriptionOutput_value w' <> []) /\
  (progressText_color w = js "red" -> progressText_color w' = js "red") /\
  (bar_ok (progressBar_value w) -> bar_ok (progressBar_value w')).

(** A request the script may issue: a transcription only for a URL the click
    listener let through, with a model named. *)
Definition request_ok (r : request) : Prop :=
  match r with
  | PostTranscribe url model => valid_url url /\ model <> []
  | GetProgress | PostCleanup => True
  end.

(** What a handler does to the network: nothing, or one request issued and
    one function suspended. *)
Definition network_step (w w' : world) : Prop :=
  (sent w' = sent w /\ pending w' = pending w) \/
  (exists r k, sent w' = r :: sent w /\ pending w' = k :: pending w /\ request_ok r).

(** Nothing has been requested and nothing is going on, or the oldest
    request is a transcription request. *)
Definition transcribe_first (w : world) : Prop :=
  (sent w = [] /\ isTranscribing w = false /\ timers w = [] /\ pending w = []) \/
  (exists l url model, sent w = l ++ [PostTranscribe url model]).

(** The binary64 operations of the Standard Library's [SpecFloat], to
    compare [round64] and the arithmetic above with on examples. *)
Definition of_spec_float (f : spec_float) : number :=
  match f with
  | S754_zero _ => Fin 0
  | S754_infinity s => Inf s
  | S754_nan => NaN
  | S754_finite s m e =>
      Fin (Qred ((if s then -1 else 1) * inject_Z (Zpos m)
                 * (if 0 <=? e then inject_Z (2 ^ e)
                    else Qmake 1 (Z.to_pos (2 ^ (- e))))))
  end.

Definition sf_of_Z (z : Z) : spec_float := binary_normalize 53 1024 z 0 false.

(** [s] starts with a digit. *)
Definition starts_with_digit (s : str) : bool :=
  match s with
  | c :: _ => is_digit c
  | [] => false
  end.

(** [s] has the text [part X of Y] right after [pre], for the digit runs
    [xs] and [ys], and [post] after it. *)
Definition part_at (pre xs ys post s : str) : Prop :=
  s = pre ++ js "part " ++ xs ++ js " of " ++ ys ++ post /\
  xs <> [] /\ forallb is_digit xs = true /\
  ys <> [] /\ forallb is_digit ys = true.

(** The first [part X of Y] of [s], with [Y] taken whole: none starts
    earlier, and no digit follows [ys]. *)
Definition first_part (pre xs ys post s : str) : Prop :=
  part_at pre xs ys post s /\ starts_with_digit post = false /\
  forall pre' xs' ys' post',
    part_at pre' xs' ys' post' s -> (List.length pre <= List.length pre')%nat.

(** No match of [p] starts at any of the first [n] places of [s]. *)
Fixpoint none_before (p : pattern) (n : nat) (s : str) : bool :=
  match n with
  | O => true
  | S n' =>
      match exec_at p s with
      | Some _ => false
      | None =>
          match s with
          | [] => true
          | _ :: s' => none_before p n' s'
          end
      end
  end.

(** The payload signals completion: the [finished] flag is set, or the
    progress text contains [completed]. *)
Definition signals_completion (data : report) : Prop :=
  finished data = true \/
  exists text, progress data = Some text /\ includes (js "completed") text = true.

(** * Properties *)

(** ** Strings and the two patterns *)

Section StringFacts.

Lemma startsWith_app (n post : str) : startsWith n (n ++ post) = true.
Proof.
  induction n as [|a n IH]; simpl; [reflexivity|].
  now rewrite N.eqb_refl, IH.
Qed.

Lemma includes_unfold (n hay : str) :
  includes n hay =
  startsWith n hay || match hay with [] => false | _ :: hay' => includes n hay' end.
Proof. destruct hay; reflexivity. Qed.

Lemma includes_app (n pre post : str) : includes n (pre ++ n ++ post) = true.
Proof.
  induction pre as [|a pre IH]; simpl.
  - now rewrite includes_unfold, startsWith_app.
  - rewrite IH. apply orb_true_r.
Qed.

Lemma includes_char_false (c : code_unit) (s : str) :
  includes [c] s = false -> ~ In c s.
Proof.
  induction s as [|a s IH]; simpl; [tauto|].
  intros H [->|Hin].
  - now rewrite N.eqb_refl in H.
  - apply orb_false_iff in H. tauto.
Qed.

Lemma includes_char_true (c : code_unit) (s : str) :
  includes [c] s = true -> In c s.
Proof.
  induction s as [|a s IH]; simpl; [discriminate|].
  destruct (N.eqb_spec c a) as [->|Hne]; simpl; auto.
Qed.

Lemma digit_run_app (s : str) : s = fst (digit_run s) ++ snd (digit_run s).
Proof.
  induction s as [|c s IH]; simpl; [reflexivity|].
  destruct (is_digit c); [|reflexivity].
  destruct (digit_run s) as [ds rest]; simpl in *. now f_equal.
Qed.

Lemma digit_run_digits (s : str) : forallb is_digit (fst (digit_run s)) = true.
Proof.
  induction s as [|c s IH]; simpl; [reflexivity|].
  destruct (is_digit c) eqn:E; [|reflexivity].
  destruct (digit_run s) as [ds rest]; simpl in *. now rewrite E.
Qed.

Lemma digit_run_of_run (ds rest : str) (c : code_unit) :
  forallb is_digit ds = true -> is_digit c = false ->
  digit_run (ds ++ c :: rest) = (ds, c :: rest).
Proof.
  intros Hds Hc. induction ds as [|d ds IH]; simpl in *.
  - now rewrite Hc.
  - apply andb_true_iff in Hds as [Hd Hds]. now rewrite Hd, IH.
Qed.

Lemma percent_not_digit : is_digit 37%N = false.
Proof. reflexivity. Qed.

Lemma startsWith_pc (rest : str) :
  startsWith (js "%") rest = match rest with r :: _ => N.eqb 37 r | [] => false end.
Proof. destruct rest as [|r rest]; [reflexivity|]. cbn. apply andb_true_r. Qed.

Lemma exec_lit_pc (s : str) :
  exec_at (lits "%") s = if startsWith (js "%") s then Some [] else None.
Proof. rewrite startsWith_pc. destruct s as [|r s]; reflexivity. Qed.

Lemma exec_percent (s : str) :
  exec_at re_percent s =
  let (ds, rest) := digit_run s in
  if JsString.truthy ds && startsWith (js "%") rest then Some [ds] else None.
Proof.
  unfold re_percent. cbn [exec_at].
  induction s as [|c s IH]; [reflexivity|].
  cbn [digits_then digit_run]. destruct (is_digit c) eqn:Hc; [|reflexivity].
  rewrite IH, exec_lit_pc. pose proof (digit_run_app s) as Happ.
  pose proof (digit_run_digits s) as Hdig.
  destruct (digit_run s) as [[|d ds] rest]; simpl in Happ, Hdig.
  - subst s. cbn [JsString.truthy andb]. destruct (startsWith (js "%") rest); reflexivity.
  - apply andb_true_iff in Hdig as [Hd _].
    cbn [JsString.truthy andb].
    destruct (startsWith (js "%") rest); [reflexivity|].
    subst s. rewrite startsWith_pc. cbn [app].
    destruct (N.eqb_spec 37 d) as [<-|_]; [discriminate|reflexivity].
Qed.

Lemma regex_match_unfold (p : pattern) (s : str) :
  regex_match p s =
  match exec_at p s with
  | Some caps => Some caps
  | None => match s with [] => None | _ :: s' => regex_match p s' end
  end.
Proof. destruct s; reflexivity. Qed.

(** A digit run followed by [%] at the start of the text is matched whole. *)
Lemma exec_percent_run (ds post : str) :
  ds <> [] -> forallb is_digit ds = true ->
  exec_at re_percent (ds ++ js "%" ++ post) = Some [ds].
Proof.
  intros Hne Hds. rewrite exec_percent.
  change (js "%" ++ post) with (37%N :: post).
  rewrite digit_run_of_run by (assumption || reflexivity).
  destruct ds; [contradiction|reflexivity].
Qed.

Lemma ends_with_digit_cons (c : code_unit) (s : str) :
  s <> [] -> ends_with_digit (c :: s) = ends_with_digit s.
Proof.
  intros Hne. unfold ends_with_digit. simpl.
  destruct (rev s) eqn:E; [|reflexivity].
  apply (f_equal (@rev _)) in E. rewrite rev_involutive in E. contradiction.
Qed.

Lemma all_digits_ends (s : str) :
  s <> [] -> forallb is_digit s = true -> ends_with_digit s = true.
Proof.
  induction s as [|c s IH]; [contradiction|]. intros _ H.
  apply andb_true_iff in H as [Hc Hs].
  destruct s as [|d s]; [unfold ends_with_digit; simpl; exact Hc|].
  rewrite ends_with_digit_cons by discriminate. apply IH; [discriminate|exact Hs].
Qed.

(** No match starts inside [pre] when [pre] has none and does not end in the
    middle of a digit run. *)
Lemma exec_percent_prefix (pre tail : str) :
  pre <> [] -> ends_with_digit pre = false ->
  exec_at re_percent pre = None ->
  exec_at re_percent (pre ++ tail) = None.
Proof.
  intros Hne Hend. rewrite !exec_percent.
  pose proof (digit_run_app pre) as Happ.
  pose proof (digit_run_digits pre) as Hdig.
  destruct (digit_run pre) as [ds rest] eqn:E; simpl in Happ, Hdig.
  destruct rest as [|r rest].
  - rewrite app_nil_r in Happ. subst ds.
    now rewrite all_digits_ends in Hend.
  - intros H.
    assert (Hr : is_digit r = false).
    { clear -E. revert ds E. induction pre as [|c pre IH]; intros ds E; simpl in E.
      - discriminate.
      - destruct (is_digit c) eqn:Hc.
        + destruct (digit_run pre) as [ds' rest']. inversion E; subst. eapply IH; reflexivity.
        + inversion E; subst. exact Hc. }
    rewrite Happ, <- app_assoc. cbn [app].
    rewrite digit_run_of_run by assumption.
    destruct (JsString.truthy ds); [|reflexivity]. cbn [andb] in *.
    rewrite startsWith_pc in *. exact H.
Qed.

Lemma regex_percent_leftmost (pre ds post : str) :
  ds <> [] -> forallb is_digit ds = true ->
  regex_match re_percent pre = None -> ends_with_digit pre = false ->
  regex_match re_percent (pre ++ ds ++ js "%" ++ post) = Some [ds].
Proof.
  intros Hne Hds. induction pre as [|c pre IH]; intros Hpre Hend.
  - cbn [app]. rewrite regex_match_unfold, exec_percent_run; auto.
  - rewrite regex_match_unfold in Hpre.
    destruct (exec_at re_percent (c :: pre)) eqn:Hx; [discriminate|].
    rewrite regex_match_unfold, exec_percent_prefix; auto; [|discriminate].
    cbn [app]. destruct pre as [|c' pre'].
    + cbn [app]. rewrite regex_match_unfold, exec_percent_run; auto.
    + apply IH; [exact Hpre|]. now rewrite ends_with_digit_cons in Hend by discriminate.
Qed.

Lemma exec_percent_some (s : str) (caps : list str) :
  exec_at re_percent s = Some caps ->
  exists ds post, s = ds ++ js "%" ++ post /\ caps = [ds] /\ ds <> [] /\
                  forallb is_digit ds = true.
Proof.
  rewrite exec_percent.
  pose proof (digit_run_app s) as Happ. pose proof (digit_run_digits s) as Hdig.
  destruct (digit_run s) as [ds rest]; simpl in Happ, Hdig.
  destruct ds as [|d ds]; [discriminate|]. cbn [JsString.truthy andb].
  rewrite startsWith_pc. destruct rest as [|r rest]; [discriminate|].
  destruct (N.eqb_spec 37 r) as [<-|]; [|discriminate].
  intros [= <-]. exists (d :: ds), rest. repeat split; auto. discriminate.
Qed.

Lemma exec_percent_extend (s tail : str) (caps : list str) :
  exec_at re_percent s = Some caps -> exec_at re_percent (s ++ tail) = Some caps.
Proof.
  intros H. destruct (exec_percent_some _ _ H) as (ds & post & -> & -> & Hne & Hds).
  rewrite <- !app_assoc. now apply exec_percent_run.
Qed.

(** The match of [/(\d+)%/], when there is one: the leftmost digit run
    followed by [%], the whole of it. *)
Lemma regex_percent_some (s : str) (caps : list str) :
  regex_match re_percent s = Some caps ->
  exists pre ds post,
    s = pre ++ ds ++ js "%" ++ post /\ caps = [ds] /\ ds <> [] /\
    forallb is_digit ds = true /\
    regex_match re_percent pre = None /\ ends_with_digit pre = false.
Proof.
  induction s as [|c s IH]; [discriminate|].
  rewrite regex_match_unfold.
  destruct (exec_at re_percent (c :: s)) as [caps'|] eqn:Hx.
  - intros [= ->]. destruct (exec_percent_some _ _ Hx) as (ds & post & E & -> & Hne & Hds).
    exists [], ds, post. repeat split; auto.
  - intros H. destruct (IH H) as (pre & ds & post & -> & -> & Hne & Hds & Hpre & Hend).
    exists (c :: pre), ds, post. repeat split; auto.
    + rewrite regex_match_unfold.
      destruct (exec_at re_percent (c :: pre)) as [caps'|] eqn:Hy; [|exact Hpre].
      apply exec_percent_extend with (tail := ds ++ js "%" ++ post) in Hy.
      cbn [app] in Hx, Hy. congruence.
    + destruct pre as [|c' pre]; [|now rewrite ends_with_digit_cons by discriminate].
      unfold ends_with_digit. cbn. destruct (is_digit c) eqn:Hc; [|reflexivity].
      assert (Hy : exec_at re_percent ((c :: ds) ++ js "%" ++ post) = Some [c :: ds]).
      { apply exec_percent_run; [discriminate|]. cbn [forallb]. now rewrite Hc. }
      cbn [app] in Hx, Hy. congruence.
Qed.

Lemma regex_percent_found (s : str) :
  has_digit_percent s -> regex_match re_percent s <> None.
Proof.
  intros (pre & c & post & -> & Hc).
  induction pre as [|a pre IH]; rewrite regex_match_unfold.
  - assert (Hy : exec_at re_percent ([c] ++ js "%" ++ post) = Some [[c]]).
    { apply exec_percent_run; [discriminate|]. cbn [forallb]. now rewrite Hc. }
    cbn [app] in Hy |- *. rewrite Hy. discriminate.
  - destruct (exec_at re_percent ((a :: pre) ++ c :: js "%" ++ post)); [discriminate|exact IH].
Qed.

Lemma regex_percent_none (s : str) :
  regex_match re_percent s = None <-> ~ has_digit_percent s.
Proof.
  split.
  - intros H Hd. now apply regex_percent_found in Hd.
  - intros H. destruct (regex_match re_percent s) as [caps|] eqn:E; [|reflexivity].
    exfalso. apply H. destruct (regex_percent_some _ _ E) as (pre & ds & post & -> & _ & Hne & Hds & _).
    destruct (exists_last Hne) as (ds' & c & ->).
    exists (pre ++ ds'), c, post. split.
    + now rewrite <- !app_assoc.
    + rewrite forallb_app in Hds. apply andb_true_iff in Hds as [_ Hc]. cbn in Hc.
      now rewrite andb_true_r in Hc.
Qed.

Lemma has_digit_percent_includes (s : str) :
  has_digit_percent s -> includes (js "%") s = true.
Proof.
  intros (pre & c & post & -> & _).
  change (pre ++ c :: js "%" ++ post) with (pre ++ [c] ++ js "%" ++ post).
  rewrite app_assoc. apply includes_app.
Qed.

(** What [(\d+)] followed by [k] matches, when it does. *)
Lemma digits_then_some (k : str -> option (list str)) (s : str) (l : list str) :
  digits_then k s = Some l ->
  exists ds rest caps,
    s = ds ++ rest /\ ds <> [] /\ forallb is_digit ds = true /\
    k rest = Some caps /\ l = ds :: caps.
Proof.
  revert l. induction s as [|c s IH]; intros l; [discriminate|].
  cbn [digits_then]. destruct (is_digit c) eqn:Hc; [|discriminate].
  destruct (digits_then k s) as [[|cap caps]|] eqn:E.
  - destruct (IH _ eq_refl) as (? & ? & ? & _ & _ & _ & _ & [=]).
  - intros [= <-]. destruct (IH _ eq_refl) as (ds & rest & caps' & -> & Hne & Hds & Hk & [= -> ->]).
    exists (c :: ds), rest, caps'. repeat split; auto; [discriminate|].
    cbn [forallb]. now rewrite Hc.
  - destruct (k s) as [caps|] eqn:Hk; [|discriminate]. intros [= <-].
    exists [c], s, caps. repeat split; auto; [discriminate|].
    cbn [forallb]. now rewrite Hc.
Qed.

(** It matches whenever some split of a digit run lets [k] go on. *)
Lemma digits_then_complete (k : str -> option (list str)) (ds rest : str) :
  ds <> [] -> forallb is_digit ds = true -> k rest <> None ->
  digits_then k (ds ++ rest) <> None.
Proof.
  intros Hne Hds Hk. induction ds as [|c ds IH]; [contradiction|].
  cbn [forallb] in Hds. apply andb_true_iff in Hds as [Hc Hds].
  cbn [app digits_then]. rewrite Hc.
  destruct ds as [|d ds].
  - cbn [app]. destruct (digits_then k rest) as [[|cap caps]|] eqn:E.
    + destruct (digits_then_some _ _ _ E) as (? & ? & ? & _ & _ & _ & _ & [=]).
    + discriminate.
    + destruct (k rest); [discriminate|contradiction].
  - specialize (IH ltac:(discriminate) Hds).
    destruct (digits_then k ((d :: ds) ++ rest)) as [[|cap caps]|] eqn:E.
    + destruct (digits_then_some _ _ _ E) as (? & ? & ? & _ & _ & _ & _ & [=]).
    + discriminate.
    + contradiction.
Qed.

(** A match at the start of [s] is an instance of the pattern. *)
Lemma exec_at_sound (p : pattern) (s : str) (caps : list str) :
  exec_at p s = Some caps ->
  exists m rest, s = m ++ rest /\ instance p caps m.
Proof.
  revert s caps. induction p as [|[c|] p IH]; intros s caps; cbn [exec_at].
  - intros [= <-]. exists [], s. split; [reflexivity|constructor].
  - destruct s as [|c' s]; [discriminate|].
    destruct (N.eqb_spec c c') as [<-|]; [|discriminate].
    intros H. destruct (IH _ _ H) as (m & rest & -> & Hi).
    exists (c :: m), rest. split; [reflexivity|now constructor].
  - intros H. destruct (digits_then_some _ _ _ H) as (ds & rest & caps' & -> & Hne & Hds & Hk & ->).
    destruct (IH _ _ Hk) as (m & rest' & -> & Hi).
    exists (ds ++ m), rest'. split; [now rewrite app_assoc|now constructor].
Qed.

(** Where the text starts with an instance, the pattern matches. *)
Lemma exec_at_complete (p : pattern) (caps : list str) (m rest : str) :
  instance p caps m -> exec_at p (m ++ rest) <> None.
Proof.
  induction 1 as [|c p caps m Hi IH|ds p caps m Hne Hds Hi IH]; cbn [exec_at app].
  - discriminate.
  - now rewrite N.eqb_refl.
  - rewrite <- app_assoc. now apply digits_then_complete.
Qed.

Lemma regex_match_sound (p : pattern) (s : str) (caps : list str) :
  regex_match p s = Some caps ->
  exists pre m post, s = pre ++ m ++ post /\ instance p caps m.
Proof.
  induction s as [|c s IH]; rewrite regex_match_unfold.
  - destruct (exec_at p []) as [caps'|] eqn:E; [|discriminate].
    intros [= ->]. destruct (exec_at_sound _ _ _ E) as (m & rest & E' & Hi).
    exists [], m, rest. auto.
  - destruct (exec_at p (c :: s)) as [caps'|] eqn:E.
    + intros [= ->]. destruct (exec_at_sound _ _ _ E) as (m & rest & E' & Hi).
      exists [], m, rest. auto.
    + intros H. destruct (IH H) as (pre & m & post & -> & Hi).
      exists (c :: pre), m, post. auto.
Qed.

Lemma regex_match_complete (p : pattern) (caps : list str) (pre m post : str) :
  instance p caps m -> regex_match p (pre ++ m ++ post) <> None.
Proof.
  intros Hi. induction pre as [|c pre IH]; rewrite regex_match_unfold.
  - cbn [app]. pose proof (exec_at_complete _ _ _ post Hi).
    destruct (exec_at p (m ++ post)); [discriminate|contradiction].
  - destruct (exec_at p ((c :: pre) ++ m ++ post)); [discriminate|exact IH].
Qed.

Lemma instance_lits (l : str) (p : pattern) (caps : list str) (m : str) :
  instance (map Lit l ++ p) caps m <->
  exists m', m = l ++ m' /\ instance p caps m'.
Proof.
  revert m. induction l as [|c l IH]; intros m; cbn [map app].
  - split; [intros H; exists m; auto|intros (m' & -> & H); exact H].
  - split.
    + intros H. inversion H as [|c0 p0 caps0 m0 Hi0|]; subst.
      apply IH in Hi0 as (m' & -> & Hi). exists m'. auto.
    + intros (m' & -> & Hi). constructor. apply IH. exists m'. auto.
Qed.

Lemma instance_part (caps : list str) (m : str) :
  instance re_part caps m <->
  exists xs ys, caps = [xs; ys] /\ m = js "part " ++ xs ++ js " of " ++ ys /\
    xs <> [] /\ forallb is_digit xs = true /\
    ys <> [] /\ forallb is_digit ys = true.
Proof.
  unfold re_part, lits. rewrite instance_lits. split.
  - intros (m1 & -> & H). inversion H as [| |xs p caps1 m2 Hx1 Hx2 H2]; subst.
    apply (instance_lits (js " of ") [Digits]) in H2 as (m3 & -> & H3).
    inversion H3 as [| |ys p caps2 m4 Hy1 Hy2 H4]; subst. inversion H4; subst.
    exists xs, ys. rewrite app_nil_r. repeat split; auto.
  - intros (xs & ys & -> & -> & Hx1 & Hx2 & Hy1 & Hy2).
    exists (xs ++ js " of " ++ ys). split; [reflexivity|].
    constructor; auto. apply (instance_lits (js " of ") [Digits]).
    exists ys. split; [reflexivity|].
    pose proof (instance_digits ys [] [] [] Hy1 Hy2 instance_nil) as H.
    now rewrite app_nil_r in H.
Qed.

Lemma part_assoc (pre xs ys post : str) :
  pre ++ (js "part " ++ xs ++ js " of " ++ ys) ++ post =
  pre ++ js "part " ++ xs ++ js " of " ++ ys ++ post.
Proof. now rewrite <- !app_assoc. Qed.

(** [/part (\d+) of (\d+)/] finds a match exactly in the texts that have a
    [part X of Y] in them, and what it captures is one of them. *)
Lemma regex_part_found (s xs ys : str) :
  has_part xs ys s ->
  exists xs' ys', regex_match re_part s = Some [xs'; ys'] /\ has_part xs' ys' s.
Proof.
  intros (pre & post & -> & Hx).
  assert (Hi : instance re_part [xs; ys] (js "part " ++ xs ++ js " of " ++ ys)).
  { apply instance_part. exists xs, ys. tauto. }
  pose proof (regex_match_complete _ _ pre _ post Hi) as Hm.
  destruct (regex_match re_part (pre ++ (js "part " ++ xs ++ js " of " ++ ys) ++ post))
    as [caps|] eqn:E; [|contradiction].
  destruct (regex_match_sound _ _ _ E) as (pre' & m & post' & E' & Hi').
  apply instance_part in Hi' as (xs' & ys' & -> & -> & Hx').
  rewrite part_assoc in E. rewrite !part_assoc in E'.
  exists xs', ys'. split; [exact E|].
  exists pre', post'. split; [exact E'|exact Hx'].
Qed.

Lemma regex_part_some (s : str) (caps : list str) :
  regex_match re_part s = Some caps ->
  exists xs ys, caps = [xs; ys] /\ has_part xs ys s.
Proof.
  intros E. destruct (regex_match_sound _ _ _ E) as (pre & m & post & -> & Hi).
  apply instance_part in Hi as (xs & ys & -> & -> & Hx).
  exists xs, ys. split; [reflexivity|].
  exists pre, post. split; [apply part_assoc|exact Hx].
Qed.

End StringFacts.

(** ** Rounding to the nearest double *)

Section NumberFacts.

Lemma floor_mono (a1 b1 a2 b2 : Z) :
  0 < b1 -> 0 < b2 -> a1 * b2 <= a2 * b1 -> a1 / b1 <= a2 / b2.
Proof.
  intros H1 H2 H.
  apply Z.div_le_lower_bound; [lia|].
  pose proof (Z.mul_div_le a1 b1 H1).
  assert (b1 * (b2 * (a1 / b1)) <= b1 * a2) by nia.
  nia.
Qed.

Lemma rne_div_mono (a1 b1 a2 b2 : Z) :
  0 < b1 -> 0 < b2 -> a1 * b2 <= a2 * b1 -> rne_div a1 b1 <= rne_div a2 b2.
Proof.
  intros H1 H2 H.
  pose proof (floor_mono _ _ _ _ H1 H2 H) as Hf.
  pose proof (Z.div_mod a1 b1 ltac:(lia)) as E1.
  pose proof (Z.div_mod a2 b2 ltac:(lia)) as E2.
  pose proof (Z.mod_pos_bound a1 b1 H1) as R1.
  pose proof (Z.mod_pos_bound a2 b2 H2) as R2.
  unfold rne_div.
  set (f1 := a1 / b1) in *. set (f2 := a2 / b2) in *.
  set (r1 := a1 mod b1) in *. set (r2 := a2 mod b2) in *.
  destruct (Z.eq_dec f1 f2) as [Ef|Nf].
  - assert (Hr : r1 * b2 <= r2 * b1) by nia.
    rewrite <- Ef.
    destruct (Z.compare_spec (2 * r1) b1), (Z.compare_spec (2 * r2) b2);
      destruct (Z.even f1); try lia; nia.
  - assert (f1 + 1 <= f2) by lia.
    destruct (2 * r1 ?= b1), (2 * r2 ?= b2);
      destruct (Z.even f1), (Z.even f2); lia.
Qed.

Lemma rne_div_exact (m b : Z) : 0 < b -> rne_div (m * b) b = m.
Proof.
  intros Hb. unfold rne_div. rewrite Z.div_mul, Z.mod_mul by lia.
  change (2 * 0) with 0. destruct (Z.compare_spec 0 b); lia.
Qed.

Lemma rne_div_le (a b c : Z) : 0 < b -> a <= c * b -> rne_div a b <= c.
Proof.
  intros Hb H. rewrite <- (rne_div_exact c 1) by lia.
  apply rne_div_mono; lia.
Qed.

Lemma rne_div_ge (a b c : Z) : 0 < b -> c * b <= a -> c <= rne_div a b.
Proof.
  intros Hb H. rewrite <- (rne_div_exact c 1) at 1 by lia.
  apply rne_div_mono; lia.
Qed.

Lemma round_pos_units (n d : Z) :
  round_pos n d =
  if 2 ^ (1024 + unit_exp) <=? units n d then Inf false else Fin (of_units (units n d)).
Proof. reflexivity. Qed.

Lemma pow2_pos (e : Z) : 0 <= e -> 0 < 2 ^ e.
Proof. intros. apply Z.pow_pos_nonneg; lia. Qed.

Lemma ulp_exp_nonneg (n d : Z) : 0 <= ulp_exp n d.
Proof. unfold ulp_exp. lia. Qed.

Lemma units_nonneg (n d : Z) : 0 < d -> 0 <= n -> 0 <= units n d.
Proof.
  intros Hd Hn. unfold units, significand.
  pose proof (pow2_pos _ (ulp_exp_nonneg n d)) as He.
  pose proof (pow2_pos unit_exp ltac:(unfold unit_exp; lia)) as Hu.
  assert (0 <= rne_div (n * 2 ^ unit_exp) (d * 2 ^ ulp_exp n d)).
  { apply rne_div_ge; nia. }
  nia.
Qed.

Lemma units_mono (n1 d1 n2 d2 : Z) :
  0 < d1 -> 0 < d2 -> 0 <= n1 -> n1 * d2 <= n2 * d1 ->
  units n1 d1 <= units n2 d2.
Proof.
  intros H1 H2 Hn H.
  pose proof (pow2_pos unit_exp ltac:(unfold unit_exp; lia)) as Hu.
  assert (Hx : (n1 * 2 ^ unit_exp) * d2 <= (n2 * 2 ^ unit_exp) * d1) by nia.
  pose proof (floor_mono _ _ _ _ H1 H2 Hx) as Ht.
  assert (Ht0 : 0 <= n1 * 2 ^ unit_exp / d1) by (apply Z.div_pos; nia).
  unfold units, significand, ulp_exp.
  set (x1 := n1 * 2 ^ unit_exp) in *. set (x2 := n2 * 2 ^ unit_exp) in *.
  set (t1 := x1 / d1) in *. set (t2 := x2 / d2) in *.
  pose proof (Z.log2_le_mono _ _ Ht) as Hl.
  set (e1 := Z.max (Z.log2 t1 - 52) 0). set (e2 := Z.max (Z.log2 t2 - 52) 0).
  assert (He1 : 0 <= e1) by (unfold e1; lia).
  assert (He12 : e1 <= e2) by (unfold e1, e2; lia).
  pose proof (pow2_pos e1 He1) as P1. pose proof (pow2_pos e2 ltac:(lia)) as P2.
  destruct (Z.eq_dec e1 e2) as [E|N].
  - rewrite <- E.
    assert (rne_div x1 (d1 * 2 ^ e1) <= rne_div x2 (d2 * 2 ^ e1)).
    { apply rne_div_mono; nia. }
    nia.
  - assert (Hlt : e1 < e2) by lia.
    assert (Hm1 : rne_div x1 (d1 * 2 ^ e1) <= 2 ^ 53).
    { apply rne_div_le; [nia|].
      assert (Hb : t1 + 1 <= 2 ^ 53 * 2 ^ e1).
      { rewrite <- Z.pow_add_r by lia.
        destruct (Z.eq_dec t1 0) as [->|Hnz].
        - pose proof (pow2_pos (53 + e1) ltac:(lia)). lia.
        - pose proof (Z.log2_spec t1 ltac:(lia)) as [_ Hs].
          assert (2 ^ Z.succ (Z.log2 t1) <= 2 ^ (53 + e1)).
          { apply Z.pow_le_mono_r; unfold e1; lia. }
          lia. }
      pose proof (Z.div_mod x1 d1 ltac:(lia)) as Ed.
      pose proof (Z.mod_pos_bound x1 d1 H1) as Rd. fold t1 in Ed.
      nia. }
    assert (Hm2 : 2 ^ 52 <= rne_div x2 (d2 * 2 ^ e2)).
    { apply rne_div_ge; [nia|].
      assert (E2 : e2 = Z.log2 t2 - 52) by (unfold e2 in *; lia).
      assert (Hpos : 0 < t2).
      { destruct (Z.lt_trichotomy t2 0) as [Hneg|[Hz|Hp]]; [| |exact Hp].
        - rewrite Z.log2_nonpos in E2 by lia. lia.
        - rewrite Hz in E2. simpl in E2. lia. }
      pose proof (Z.log2_spec t2 Hpos) as [Hs _].
      assert (Hb : 2 ^ 52 * 2 ^ e2 <= t2).
      { rewrite <- Z.pow_add_r by lia. replace (52 + e2) with (Z.log2 t2) by lia. exact Hs. }
      pose proof (Z.div_mod x2 d2 ltac:(lia)) as Ed.
      pose proof (Z.mod_pos_bound x2 d2 H2) as Rd. fold t2 in Ed.
      nia. }
    assert (Hp : 2 ^ 53 * 2 ^ e1 <= 2 ^ 52 * 2 ^ e2).
    { rewrite <- !Z.pow_add_r by lia. apply Z.pow_le_mono_r; lia. }
    nia.
Qed.

Lemma of_units_le (v1 v2 : Z) : v1 <= v2 -> (of_units v1 <= of_units v2)%Q.
Proof.
  intros H. unfold of_units. rewrite !Qred_correct.
  unfold Qle. cbn [Qnum Qden]. nia.
Qed.

Lemma of_units_nonneg (v : Z) : 0 <= v -> (0 <= of_units v)%Q.
Proof.
  intros H. unfold of_units. rewrite Qred_correct. unfold Qle. cbn [Qnum Qden]. lia.
Qed.

Lemma round_pos_mono (n1 d1 n2 d2 : Z) :
  0 < d1 -> 0 < d2 -> 0 <= n1 -> n1 * d2 <= n2 * d1 ->
  le (round_pos n1 d1) (round_pos n2 d2).
Proof.
  intros H1 H2 Hn H. pose proof (units_mono _ _ _ _ H1 H2 Hn H) as Hu.
  rewrite !round_pos_units.
  destruct (Z.leb_spec (2 ^ (1024 + unit_exp)) (units n1 d1)),
           (Z.leb_spec (2 ^ (1024 + unit_exp)) (units n2 d2)); simpl; auto; try lia.
  now apply of_units_le.
Qed.

Lemma round_pos_nonneg (n d : Z) :
  0 < d -> 0 <= n -> le (Fin 0) (round_pos n d).
Proof.
  intros Hd Hn. rewrite round_pos_units.
  destruct (2 ^ (1024 + unit_exp) <=? units n d); simpl; [reflexivity|].
  apply of_units_nonneg, units_nonneg; assumption.
Qed.

(** Rounding is monotone on the non-negative rationals. *)
Lemma round64_mono (p q : Q) :
  (0 <= p)%Q -> (p <= q)%Q -> le (round64 p) (round64 q).
Proof.
  intros Hp Hpq. unfold round64.
  assert (Hn : 0 <= Qnum p) by (unfold Qle in Hp; simpl in Hp; lia).
  assert (Hq : Qnum p * Zpos (Qden q) <= Qnum q * Zpos (Qden p)) by exact Hpq.
  destruct (Z.compare_spec (Qnum p) 0) as [Ep|Lp|Gp]; [|lia|].
  - destruct (Z.compare_spec (Qnum q) 0) as [Eq|Lq|Gq].
    + simpl. apply Qle_refl.
    + nia.
    + apply round_pos_nonneg; lia.
  - destruct (Z.compare_spec (Qnum q) 0) as [Eq|Lq|Gq]; [nia|nia|].
    apply round_pos_mono; lia.
Qed.

Lemma Qred_inject_Z (n : Z) : Qred (inject_Z n) = inject_Z n.
Proof.
  unfold Qred, inject_Z.
  generalize (Z.ggcd_gcd n 1), (Z.ggcd_correct_divisors n 1).
  destruct (Z.ggcd n 1) as (g, (aa, bb)). simpl fst. rewrite Z.gcd_1_r.
  intros -> [Ha Hb]. replace bb with 1 by lia. replace aa with n by lia. reflexivity.
Qed.

Lemma of_units_int (n : Z) : of_units (n * 2 ^ unit_exp) = inject_Z n.
Proof.
  unfold of_units. rewrite <- Qred_inject_Z. apply Qred_complete.
  unfold Qeq. cbn [Qnum Qden inject_Z].
  rewrite Z2Pos.id by (apply pow2_pos; unfold unit_exp; lia). lia.
Qed.

(** Integers below [2^53] are doubles. *)
Lemma round64_int (n : Z) :
  0 <= n < 2 ^ 53 -> round64 (inject_Z n) = Fin (inject_Z n).
Proof.
  intros [H0 H53]. unfold round64. simpl Qnum. simpl Qden.
  destruct (Z.compare_spec n 0) as [->|?|Hpos]; [reflexivity|lia|].
  rewrite round_pos_units.
  assert (Hu : units n 1 = n * 2 ^ unit_exp).
  { unfold units, significand, ulp_exp. rewrite Z.div_1_r.
    rewrite Z.log2_mul_pow2 by (unfold unit_exp; lia).
    pose proof (Z.log2_nonneg n) as Hl0.
    assert (Hl : Z.log2 n < 53) by (apply Z.log2_lt_pow2; lia).
    set (l := Z.log2 n) in *.
    replace (Z.max (unit_exp + l - 52) 0) with (unit_exp + l - 52) by (unfold unit_exp; lia).
    set (e := unit_exp + l - 52).
    assert (He : 0 <= e) by (unfold e, unit_exp; lia).
    assert (Hs : 2 ^ unit_exp = 2 ^ (52 - l) * 2 ^ e).
    { rewrite <- Z.pow_add_r by lia. f_equal. unfold e. lia. }
    rewrite Hs at 1. rewrite Z.mul_assoc, Z.mul_1_l.
    rewrite rne_div_exact by (apply pow2_pos; lia).
    rewrite Hs. lia. }
  rewrite Hu.
  assert (Hlt : n * 2 ^ unit_exp < 2 ^ (1024 + unit_exp)).
  { rewrite Z.pow_add_r by (unfold unit_exp; lia).
    pose proof (pow2_pos unit_exp ltac:(unfold unit_exp; lia)).
    assert (2 ^ 53 <= 2 ^ 1024) by (apply Z.pow_le_mono_r; lia). nia. }
  destruct (Z.leb_spec (2 ^ (1024 + unit_exp)) (n * 2 ^ unit_exp)); [lia|].
  now rewrite of_units_int.
Qed.

(** A rational between two small integers rounds to a double between them. *)
Lemma round64_between (q : Q) (lo hi : Z) :
  0 <= lo -> hi < 2 ^ 53 ->
  (inject_Z lo <= q)%Q -> (q <= inject_Z hi)%Q ->
  between (inject_Z lo) (inject_Z hi) (round64 q).
Proof.
  intros Hlo Hhi H1 H2.
  assert (Hlh : lo <= hi).
  { pose proof (Qle_trans _ _ _ H1 H2) as H. unfold Qle in H. simpl in H. lia. }
  assert (H0lo : (0 <= inject_Z lo)%Q) by (unfold Qle; simpl; lia).
  pose proof (round64_mono _ _ H0lo H1) as M1.
  assert (H0q : (0 <= q)%Q).
  { eapply Qle_trans; [exact H0lo|exact H1]. }
  pose proof (round64_mono _ _ H0q H2) as M2.
  rewrite round64_int in M1, M2 by lia.
  destruct (round64 q) as [r|s|]; simpl in *.
  - exists r. auto.
  - congruence.
  - contradiction.
Qed.

(** The model agrees with [SpecFloat] where the script's arithmetic goes:
    inexact quotients, integers beyond 53 bits, overflow, the subnormal
    range and division by zero. *)
Example agrees_third :
  of_spec_float (SFdiv 53 1024 (sf_of_Z 1) (sf_of_Z 3)) = div (lit 1) (lit 3).
Proof. vm_compute. reflexivity. Qed.

Example agrees_part_value :
  of_spec_float
    (SFadd 53 1024 (sf_of_Z 40)
       (SFmul 53 1024 (SFdiv 53 1024 (sf_of_Z 1) (sf_of_Z 3)) (sf_of_Z 50)))
  = part_value (js "1") (js "3").
Proof. vm_compute. reflexivity. Qed.

Example agrees_large_integer :
  of_spec_float (sf_of_Z (10 ^ 23)) = round64 (inject_Z (10 ^ 23)) /\
  of_spec_float (sf_of_Z (2 ^ 53 + 1)) = round64 (inject_Z (2 ^ 53 + 1)) /\
  of_spec_float (sf_of_Z (2 ^ 53 + 3)) = round64 (inject_Z (2 ^ 53 + 3)).
Proof. split; [|split]; vm_compute; reflexivity. Qed.

Example agrees_overflow :
  of_spec_float (sf_of_Z (2 ^ 1024 - 2 ^ 970)) = round64 (inject_Z (2 ^ 1024 - 2 ^ 970)) /\
  of_spec_float (sf_of_Z (2 ^ 1024 - 2 ^ 970 - 1))
  = round64 (inject_Z (2 ^ 1024 - 2 ^ 970 - 1)).
Proof. split; vm_compute; reflexivity. Qed.

Example agrees_subnormal :
  of_spec_float
    (SFdiv 53 1024 (SFdiv 53 1024 (sf_of_Z 3) (sf_of_Z (10 ^ 308))) (sf_of_Z (10 ^ 15)))
  = div (div (lit 3) (round64 (inject_Z (10 ^ 308)))) (lit (10 ^ 15)).
Proof. vm_compute. reflexivity. Qed.

Example agrees_zero_divisor :
  of_spec_float (SFdiv 53 1024 (sf_of_Z 5) (sf_of_Z 0)) = div (lit 5) (lit 0) /\
  of_spec_float (SFdiv 53 1024 (sf_of_Z 0) (sf_of_Z 0)) = div (lit 0) (lit 0).
Proof. split; vm_compute; reflexivity. Qed.

End NumberFacts.

(** ** The session and its timer *)

Section SessionFacts.

Lemma filter_self (t : timer_id) :
  filter (fun t' => negb (Pos.eqb t t')) [t] = [].
Proof. cbn. now rewrite Pos.eqb_refl. Qed.

Lemma filter_absent (t : timer_id) (l : list timer_id) :
  ~ In t l -> filter (fun t' => negb (Pos.eqb t t')) l = l.
Proof.
  induction l as [|a l IH]; [reflexivity|]. intros H. cbn.
  destruct (Pos.eqb_spec t a) as [->|Hne]; [elim H; now left|].
  cbn. f_equal. apply IH. intros Hin. apply H. now right.
Qed.

Lemma updateUI_frame (st : ui_state) (w : world) :
  isTranscribing (updateUI st w) = isTranscribing w /\
  progressInterval (updateUI st w) = progressInterval w /\
  timers (updateUI st w) = timers w /\
  next_timer (updateUI st w) = next_timer w /\
  sent (updateUI st w) = sent w /\
  pending (updateUI st w) = pending w.
Proof. unfold updateUI. destruct (field_truthy (ui_transcription st)); cbn; tauto. Qed.

Lemma updateUI_shows (st : ui_state) (w : world) :
  transcribeButton_disabled (updateUI st w) = ui_isTranscribing st /\
  urlInput_disabled (updateUI st w) = ui_isTranscribing st /\
  progressBar_value (updateUI st w) = Number.or_else (ui_progress st) (lit 0) /\
  progressText_textContent (updateUI st w) = JsString.or_else (ui_message st) [].
Proof. unfold updateUI. destruct (field_truthy (ui_transcription st)); cbn; tauto. Qed.

Lemma resetState_spec (w : world) :
  isTranscribing (resetState w) = false /\
  progressInterval (resetState w) = None /\
  transcribeButton_disabled (resetState w) = false /\
  urlInput_disabled (resetState w) = false /\
  timers (resetState w) =
    match progressInterval w with
    | Some t => filter (fun t' => negb (Pos.eqb t t')) (timers w)
    | None => timers w
    end /\
  next_timer (resetState w) = next_timer w /\
  sent (resetState w) = sent w /\ pending (resetState w) = pending w /\
  progressBar_value (resetState w) = progressBar_value w /\
  progressText_textContent (resetState w) = progressText_textContent w /\
  progressText_color (resetState w) = progressText_color w.
Proof.
  unfold resetState. cbn. destruct (progressInterval w) eqn:E; cbn; rewrite ?E; tauto.
Qed.

Lemma showError_spec (message : str) (w : world) :
  shows_error message (showError message w) /\
  timers (showError message w) = timers (resetState w) /\
  next_timer (showError message w) = next_timer w /\
  sent (showError message w) = sent w /\
  pending (showError message w) = pending w /\
  progressBar_value (showError message w) = progressBar_value w.
Proof.
  unfold shows_error, showError, resetState. cbn.
  destruct (progressInterval w) eqn:E; cbn; rewrite ?E; tauto.
Qed.

Lemma timer_inv_reset (w : world) : timer_inv w -> timer_inv (resetState w).
Proof.
  intros [Ht Hn]. unfold timer_inv.
  destruct (resetState_spec w) as (_ & Hp & _ & _ & Hts & Hnx & _).
  unfold own_timer in *. rewrite Hp, Hts, Hnx.
  destruct (progressInterval w) as [t|]; rewrite Ht.
  - rewrite filter_self. split; [reflexivity|constructor].
  - split; [reflexivity|constructor].
Qed.

Lemma timer_inv_frame (w w' : world) :
  progressInterval w' = progressInterval w -> timers w' = timers w ->
  next_timer w' = next_timer w -> timer_inv w -> timer_inv w'.
Proof.
  unfold timer_inv, own_timer. intros -> -> ->. auto.
Qed.

Lemma timer_inv_showError (message : str) (w : world) :
  timer_inv w -> timer_inv (showError message w).
Proof.
  intros H. apply timer_inv_reset in H. revert H. apply timer_inv_frame.
  - destruct (showError_spec message w) as ((_ & _ & _ & -> & _) & _).
    now destruct (resetState_spec w) as (_ & -> & _).
  - now destruct (showError_spec message w) as (_ & -> & _).
  - destruct (showError_spec message w) as (_ & _ & -> & _).
    now destruct (resetState_spec w) as (_ & _ & _ & _ & _ & -> & _).
Qed.

Lemma timer_inv_updateUI (st : ui_state) (w : world) :
  timer_inv w -> timer_inv (updateUI st w).
Proof.
  destruct (updateUI_frame st w) as (_ & Hp & Ht & Hn & _).
  now apply timer_inv_frame.
Qed.

Lemma startProgressChecking_spec (w : world) :
  timer_inv w ->
  timers (startProgressChecking w) = [next_timer w] /\
  progressInterval (startProgressChecking w) = Some (next_timer w) /\
  next_timer (startProgressChecking w) = Pos.succ (next_timer w) /\
  (forall t, progressInterval w = Some t ->
             ~ In t (timers (startProgressChecking w))) /\
  sent (startProgressChecking w) = sent w /\
  pending (startProgressChecking w) = pending w.
Proof.
  intros [Ht Hn]. unfold startProgressChecking, own_timer in *.
  destruct (progressInterval w) as [t|] eqn:E; cbn; rewrite Ht in *.
  - rewrite filter_self. repeat split; auto.
    intros t' [= <-] [Hin|[]]. inversion Hn as [|? ? Hlt _]; subst. lia.
  - repeat split; auto. discriminate.
Qed.

Lemma timer_inv_start (w : world) :
  timer_inv w -> timer_inv (startProgressChecking w).
Proof.
  intros H. destruct (startProgressChecking_spec w H) as (Ht & Hp & Hn & _).
  unfold timer_inv, own_timer. rewrite Ht, Hp, Hn. split; [reflexivity|].
  constructor; [lia|constructor].
Qed.

Lemma timer_inv_fetch (r : request) (k : continuation) (w : world) :
  timer_inv w -> timer_inv (fetch r k w).
Proof. now apply timer_inv_frame. Qed.

Lemma timer_inv_network (s : list request) (p : list continuation) (w : world) :
  timer_inv w -> timer_inv (set_network s p w).
Proof. now apply timer_inv_frame. Qed.

Lemma timer_inv_handleTranscription (url model : str) (w : world) :
  timer_inv w -> timer_inv (handleTranscription url model w).
Proof.
  intros H. unfold handleTranscription.
  apply timer_inv_fetch, timer_inv_updateUI. revert H. now apply timer_inv_frame.
Qed.

Lemma timer_inv_handleTranscription_response (r : settled) (w : world) :
  timer_inv w -> timer_inv (handleTranscription_response r w).
Proof.
  intros H. unfold handleTranscription_response, handleTranscription_catch.
  destruct r as [m|[|] data]; cbn [try_catch negb].
  - now apply timer_inv_showError.
  - now apply timer_inv_start.
  - now apply timer_inv_showError.
Qed.

Lemma timer_inv_errors (data : report) (w : world) :
  timer_inv w ->
  timer_inv (try_catch (checkProgress_errors data w) checkProgress_catch).
Proof.
  intros H. unfold checkProgress_errors, checkProgress_catch.
  destruct (field_truthy (error data)); cbn [try_catch]; [|exact H].
  now apply timer_inv_showError.
Qed.

Lemma timer_inv_checkProgress_response (r : settled) (w : world) :
  timer_inv w -> timer_inv (checkProgress_response r w).
Proof.
  intros H. unfold checkProgress_response.
  destruct r as [m|[|] data]; cbn [negb].
  - cbn [try_catch]. now apply timer_inv_showError.
  - assert (H1 : timer_inv
        (if field_truthy (progress data)
         then updateUI {| ui_isTranscribing := true;
                          ui_progress := parseProgress (field_text (progress data));
                          ui_message := field_text (progress data);
                          ui_transcription := transcription data |} w
         else w)).
    { destruct (field_truthy (progress data)); [now apply timer_inv_updateUI|exact H]. }
    destruct (completion_signal data).
    + cbn [try_catch]. now apply timer_inv_fetch, timer_inv_reset, timer_inv_updateUI.
    + now apply timer_inv_errors.
  - cbn [try_catch]. now apply timer_inv_showError.
Qed.

Lemma timer_inv_checkProgress_cleaned (data : report) (r : settled) (w : world) :
  timer_inv w -> timer_inv (checkProgress_cleaned data r w).
Proof.
  intros H. unfold checkProgress_cleaned. destruct r as [m|ok d].
  - cbn [try_catch]. now apply timer_inv_showError.
  - now apply timer_inv_errors.
Qed.

Lemma timer_inv_on_click (w : world) : timer_inv w -> timer_inv (on_click w).
Proof.
  intros H. unfold on_click.
  destruct (negb (JsString.truthy (trim (urlInput_value w)))); [now apply timer_inv_showError|].
  destruct (negb (includes (js "youtube.com/") (trim (urlInput_value w))) &&
            negb (includes (js "youtu.be/") (trim (urlInput_value w))));
    [now apply timer_inv_showError|now apply timer_inv_handleTranscription].
Qed.

Lemma timer_inv_click (w : world) : timer_inv w -> timer_inv (click w).
Proof.
  intros H. unfold click. destruct (transcribeButton_disabled w); [exact H|].
  now apply timer_inv_on_click.
Qed.

Lemma timer_inv_resume (k : continuation) (r : settled) (w : world) :
  timer_inv w -> timer_inv (resume k r w).
Proof.
  intros H. destruct k; cbn [resume].
  - now apply timer_inv_handleTranscription_response.
  - now apply timer_inv_checkProgress_response.
  - now apply timer_inv_checkProgress_cleaned.
  - exact H.
Qed.

(** Every step of the event loop keeps the invariant. *)
Lemma timer_inv_step (w w' : world) : step w w' -> timer_inv w -> timer_inv w'.
Proof.
  intros Hs H. destruct Hs.
  - revert H. now apply timer_inv_frame.
  - now apply timer_inv_click.
  - unfold on_keypress.
    destruct (JsString.eqb key (js "Enter") && negb (isTranscribing w)); [|exact H].
    now apply timer_inv_click.
  - now apply timer_inv_fetch.
  - now apply timer_inv_resume, timer_inv_network.
  - unfold on_beforeunload. destruct (isTranscribing w); [|exact H].
    now apply timer_inv_fetch.
Qed.

Lemma timer_inv_loaded (w : world) : loaded w -> timer_inv w.
Proof.
  intros (_ & Hp & Ht & _). unfold timer_inv, own_timer. rewrite Hp, Ht.
  split; [reflexivity|constructor].
Qed.

Lemma timer_inv_reachable (w : world) : reachable w -> timer_inv w.
Proof.
  intros (w0 & Hl & Hs). apply timer_inv_loaded in Hl.
  apply clos_rt_rt1n in Hs. induction Hs as [|x y z Hxy _ IH]; [exact Hl|].
  apply IH. eapply timer_inv_step; eauto.
Qed.

Lemma checkProgress_errors_frame (data : report) (w : world) :
  let w' := try_catch (checkProgress_errors data w) checkProgress_catch in
  sent w' = sent w /\ pending w' = pending w /\
  progressBar_value w' = progressBar_value w.
Proof.
  unfold checkProgress_errors, checkProgress_catch.
  destruct (field_truthy (error data)); cbn [try_catch]; [|tauto].
  destruct (showError_spec (JsString.or_else (field_text (error data))
                              (js "Error checking progress")) w)
    as (_ & _ & _ & -> & -> & ->). tauto.
Qed.

Lemma checkProgress_cleaned_frame (data : report) (r : settled) (w : world) :
  sent (checkProgress_cleaned data r w) = sent w /\
  pending (checkProgress_cleaned data r w) = pending w /\
  progressBar_value (checkProgress_cleaned data r w) = progressBar_value w.
Proof.
  unfold checkProgress_cleaned. destruct r as [m|ok d].
  - cbn [try_catch]. unfold checkProgress_catch.
    destruct (showError_spec (JsString.or_else m (js "Error checking progress")) w)
      as (_ & _ & _ & -> & -> & ->). tauto.
  - apply checkProgress_errors_frame.
Qed.

Lemma resetState_idempotent_timers (w : world) :
  timers (resetState (resetState w)) = timers (resetState w) /\
  progressInterval (resetState (resetState w)) = None.
Proof.
  destruct (resetState_spec (resetState w)) as (_ & Hp & _ & _ & Ht & _).
  destruct (resetState_spec w) as (_ & Hp0 & _).
  rewrite Ht, Hp0. auto.
Qed.

Lemma demo_ticked_reachable : reachable demo_ticked.
Proof.
  exists demo_form. split; [repeat split|].
  apply rt_trans with demo_submitted; [apply rt_step, step_click|].
  apply rt_trans with demo_polling; apply rt_step.
  - apply (step_settle demo_submitted K_transcribe (Response true demo_report) [] []).
    vm_compute. reflexivity.
  - apply (step_tick demo_polling 1%positive). vm_compute. now left.
Qed.

End SessionFacts.

(** ** The progress-text interpreter *)

Section ParseProgressFacts.

Lemma digit_val_range (c : code_unit) : is_digit c = true -> 0 <= digit_val c <= 9.
Proof.
  unfold is_digit, digit_val. intros H. apply andb_true_iff in H as [H1 H2].
  apply N.leb_le in H1, H2. lia.
Qed.

Lemma fold_decimal_nonneg (ds : str) (acc : Z) :
  0 <= acc -> forallb is_digit ds = true ->
  0 <= fold_left (fun acc c => 10 * acc + digit_val c) ds acc.
Proof.
  revert acc. induction ds as [|c ds IH]; intros acc Hacc Hds; cbn [fold_left].
  - exact Hacc.
  - cbn [forallb] in Hds. apply andb_true_iff in Hds as [Hc Hds].
    apply IH; [|exact Hds]. pose proof (digit_val_range c Hc). lia.
Qed.

Lemma decimal_nonneg (ds : str) : forallb is_digit ds = true -> 0 <= decimal ds.
Proof. apply fold_decimal_nonneg. lia. Qed.

(** [parseInt] is exact on the runs that spell fewer than 54 bits. *)
Lemma parseInt_small (ds : str) :
  forallb is_digit ds = true -> decimal ds < 2 ^ 53 ->
  parseInt ds = lit (decimal ds).
Proof.
  intros Hds Hlt. apply round64_int. split; [now apply decimal_nonneg|exact Hlt].
Qed.

Lemma inject_Z_le (a b : Z) : a <= b -> (inject_Z a <= inject_Z b)%Q.
Proof. intros H. unfold Qle. simpl. lia. Qed.

Lemma parseInt_mono (xs ys : str) :
  forallb is_digit xs = true -> decimal xs <= decimal ys ->
  le (parseInt xs) (parseInt ys).
Proof.
  intros Hx Hle. apply round64_mono; apply inject_Z_le; [now apply decimal_nonneg|exact Hle].
Qed.

Lemma between_weaken (lo hi lo' hi' : Q) (x : number) :
  (lo' <= lo)%Q -> (hi <= hi')%Q -> between lo hi x -> between lo' hi' x.
Proof.
  intros H1 H2 (q & -> & Ha & Hb). exists q. repeat split; auto.
  - eapply Qle_trans; eauto.
  - eapply Qle_trans; eauto.
Qed.

(** Line 55 on [X <= Y]: a value from 40 to 90. *)
Lemma part_value_between (xs ys : str) :
  forallb is_digit xs = true ->
  0 < decimal ys -> decimal xs <= decimal ys -> is_finite (parseInt xs) ->
  between 40 90 (part_value xs ys).
Proof.
  intros Hx Hy Hxy [a Ha].
  pose proof (parseInt_mono xs ys Hx Hxy) as Hle.
  assert (H0a : (0 <= a)%Q).
  { pose proof (round64_mono 0 (inject_Z (decimal xs)) (Qle_refl 0)
                  (inject_Z_le 0 _ (decimal_nonneg xs Hx))) as H.
    change (round64 (inject_Z (decimal xs))) with (parseInt xs) in H.
    rewrite Ha in H. exact H. }
  assert (H1y : le (lit 1) (parseInt ys)).
  { unfold lit. rewrite <- (round64_int 1) by lia.
    apply round64_mono; [apply (inject_Z_le 0 1); lia|apply inject_Z_le; lia]. }
  assert (Hd : between 0 1 (div (parseInt xs) (parseInt ys))).
  { rewrite Ha in *. destruct (parseInt ys) as [b|s|]; simpl in Hle, H1y |- *.
    - assert (Hb : (0 < b)%Q) by (eapply Qlt_le_trans; [|exact H1y]; reflexivity).
      assert (Hz : is_zero b = false).
      { unfold is_zero. apply Z.eqb_neq. unfold Qlt in Hb. simpl in Hb. lia. }
      rewrite Hz. apply (round64_between _ 0 1); try lia.
      + apply Qle_shift_div_l; [exact Hb|]. now rewrite Qmult_0_l.
      + apply Qle_shift_div_r; [exact Hb|]. now rewrite Qmult_1_l.
    - exists 0%Q. repeat split; [apply Qle_refl|discriminate].
    - contradiction. }
  destruct Hd as (c & Hc & Hc0 & Hc1). unfold part_value. rewrite Hc.
  assert (Hm : between 0 50 (mul (Fin c) (lit 50))).
  { apply (round64_between _ 0 50); try lia; unfold lit;
      change (inject_Z 0) with 0%Q; change (inject_Z 50) with 50%Q; lra. }
  destruct Hm as (p & Hp & Hp0 & Hp1). rewrite Hp.
  apply (round64_between _ 40 90); try lia; unfold lit;
    change (inject_Z 40) with 40%Q; change (inject_Z 90) with 90%Q; lra.
Qed.

Lemma parseProgress_percent_at (pre ds post : str) :
  ds <> [] -> forallb is_digit ds = true ->
  ~ has_digit_percent pre -> ends_with_digit pre = false ->
  parseProgress (pre ++ ds ++ js "%" ++ post) = parseInt ds.
Proof.
  intros Hne Hds Hpre Hend. unfold parseProgress.
  rewrite (app_assoc pre ds), includes_app, <- app_assoc.
  rewrite regex_percent_leftmost; auto. now apply regex_percent_none.
Qed.

Lemma part_rule_value (s xs ys : str) :
  part_rule s = Some (xs, ys) -> parseProgress s = part_value xs ys.
Proof.
  unfold part_rule, reaches_transcribing, parseProgress.
  destruct (includes (js "%") s); [discriminate|].
  destruct (includes (js "Starting") s); [discriminate|].
  destruct (includes (js "download") s); [discriminate|].
  destruct (includes (js "Processing") s); [discriminate|].
  destruct (includes (js "Transcribing") s); [|discriminate]. cbn [negb andb].
  destruct (regex_match re_part s) as [[|x [|y caps]]|]; try discriminate.
  now intros [= -> ->].
Qed.

Lemma part_rule_some (s xs ys : str) :
  part_rule s = Some (xs, ys) ->
  has_part xs ys s /\ reaches_transcribing s = true /\
  includes (js "Transcribing") s = true.
Proof.
  unfold part_rule.
  destruct (reaches_transcribing s); [|discriminate].
  destruct (includes (js "Transcribing") s); [|discriminate]. cbn [andb].
  destruct (regex_match re_part s) as [caps|] eqn:E; [|discriminate].
  destruct (regex_part_some _ _ E) as (xs' & ys' & -> & Hp).
  now intros [= <- <-].
Qed.


Lemma part_rule_none (s : str) :
  reaches_transcribing s = true -> part_rule s = None ->
  parseProgress s = if includes (js "completed") s then lit 100 else lit 0.
Proof.
  unfold part_rule, reaches_transcribing, parseProgress.
  destruct (includes (js "%") s); [discriminate|].
  destruct (includes (js "Starting") s); [discriminate|].
  destruct (includes (js "download") s); [discriminate|].
  destruct (includes (js "Processing") s); [discriminate|]. intros _.
  destruct (includes (js "Transcribing") s); [|reflexivity]. cbn [negb andb].
  destruct (regex_match re_part s) as [caps|] eqn:E; [|reflexivity].
  destruct (regex_part_some _ _ E) as (xs' & ys' & -> & _). discriminate.
Qed.

Lemma is_integer_lit (n : Z) : is_integer (lit n).
Proof. now exists n. Qed.

Lemma between_lit (lo hi n : Z) :
  lo <= n <= hi -> between (inject_Z lo) (inject_Z hi) (lit n).
Proof.
  intros [H1 H2]. exists (inject_Z n). repeat split; unfold Qle; simpl; lia.
Qed.


End ParseProgressFacts.

(** ** The [part X of Y] pattern *)

Section PartPatternFacts.

Lemma digit_run_whole (ds post : str) :
  forallb is_digit ds = true -> starts_with_digit post = false ->
  digit_run (ds ++ post) = (ds, post).
Proof.
  intros Hds Hp. destruct post as [|c post].
  - rewrite app_nil_r. induction ds as [|d ds IH]; [reflexivity|].
    cbn [forallb] in Hds. apply andb_true_iff in Hds as [Hd Hds].
    cbn [digit_run]. now rewrite Hd, IH.
  - now apply digit_run_of_run.
Qed.

Lemma digits_then_start (k : str -> option (list str)) (s : str) :
  starts_with_digit s = false -> digits_then k s = None.
Proof. destruct s as [|c s]; [reflexivity|]. cbn. now intros ->. Qed.

(** The group takes the whole run when what follows the run matches. *)
Lemma digits_then_greedy (k : str -> option (list str)) (ds post : str)
      (caps : list str) :
  ds <> [] -> forallb is_digit ds = true -> starts_with_digit post = false ->
  k post = Some caps ->
  digits_then k (ds ++ post) = Some (ds :: caps).
Proof.
  intros Hne Hds Hp Hk. induction ds as [|d ds IH]; [contradiction|].
  cbn [forallb] in Hds. apply andb_true_iff in Hds as [Hd Hds].
  cbn [app digits_then]. rewrite Hd. destruct ds as [|d' ds].
  - cbn [app]. rewrite (digits_then_start k post Hp), Hk. reflexivity.
  - rewrite IH; [reflexivity|discriminate|exact Hds].
Qed.

Lemma exec_lits (l : str) (p : pattern) (s : str) :
  exec_at (map Lit l ++ p) (l ++ s) = exec_at p s.
Proof.
  induction l as [|c l IH]; [reflexivity|].
  cbn [map app exec_at]. now rewrite N.eqb_refl.
Qed.

(** The pattern at a [part X of Y] whose [Y] no digit follows: [X] and [Y]
    are what it captures. *)
Lemma exec_part_at (xs ys post : str) :
  xs <> [] -> forallb is_digit xs = true ->
  ys <> [] -> forallb is_digit ys = true -> starts_with_digit post = false ->
  exec_at re_part (js "part " ++ xs ++ js " of " ++ ys ++ post) = Some [xs; ys].
Proof.
  intros Hx1 Hx2 Hy1 Hy2 Hp. unfold re_part, lits. rewrite exec_lits.
  cbn [exec_at]. apply digits_then_greedy; auto.
  rewrite exec_lits. cbn [exec_at].
  apply digits_then_greedy; auto.
Qed.

Lemma part_at_exec (xs ys post : str) :
  xs <> [] -> forallb is_digit xs = true ->
  ys <> [] -> forallb is_digit ys = true ->
  exec_at re_part (js "part " ++ xs ++ js " of " ++ ys ++ post) <> None.
Proof.
  intros Hx1 Hx2 Hy1 Hy2.
  assert (Hi : instance re_part [xs; ys] (js "part " ++ xs ++ js " of " ++ ys)).
  { apply instance_part. exists xs, ys. tauto. }
  pose proof (exec_at_complete _ _ _ post Hi) as H.
  now rewrite <- !app_assoc in H.
Qed.

Lemma digit_run_rest (s : str) : starts_with_digit (snd (digit_run s)) = false.
Proof.
  induction s as [|c s IH]; [reflexivity|]. cbn [digit_run].
  destruct (is_digit c) eqn:Hc.
  - destruct (digit_run s) as [ds rest]. exact IH.
  - cbn. exact Hc.
Qed.

Lemma part_at_cons (c : code_unit) (pre xs ys post s : str) :
  part_at pre xs ys post s -> part_at (c :: pre) xs ys post (c :: s).
Proof. intros (-> & H). split; [reflexivity|exact H]. Qed.

Lemma part_at_tail (c : code_unit) (pre xs ys post s : str) :
  part_at (c :: pre) xs ys post (c :: s) -> part_at pre xs ys post s.
Proof. intros (E & H). split; [now injection E|exact H]. Qed.

Lemma part_at_head (c c' : code_unit) (pre xs ys post s : str) :
  part_at (c' :: pre) xs ys post (c :: s) -> c' = c.
Proof. intros (E & _). now injection E. Qed.

Lemma part_at_start_exec (xs ys post s : str) :
  part_at [] xs ys post s -> exec_at re_part s <> None.
Proof. intros (-> & H1 & H2 & H3 & H4). now apply part_at_exec. Qed.

Lemma exec_part_some (s : str) (caps : list str) :
  exec_at re_part s = Some caps ->
  exists xs ys post,
    part_at [] xs ys post s /\ starts_with_digit post = false /\ caps = [xs; ys].
Proof.
  intros E. destruct (exec_at_sound _ _ _ E) as (m & rest & Es & Hi).
  apply instance_part in Hi as (xs & ys & -> & -> & Hx1 & Hx2 & Hy1 & Hy2).
  pose proof (digit_run_app rest) as Hr. pose proof (digit_run_digits rest) as Hd.
  pose proof (digit_run_rest rest) as Hp.
  destruct (digit_run rest) as [d post]; cbn [fst snd] in *.
  assert (Es' : s = js "part " ++ xs ++ js " of " ++ (ys ++ d) ++ post).
  { rewrite Es, Hr, <- !app_assoc. reflexivity. }
  assert (Hyd1 : ys ++ d <> []) by (destruct ys; [contradiction|discriminate]).
  assert (Hyd2 : forallb is_digit (ys ++ d) = true).
  { rewrite forallb_app, Hy2, Hd. reflexivity. }
  exists xs, (ys ++ d), post. split; [|split; [exact Hp|]].
  - split; [exact Es'|]. auto.
  - rewrite Es', exec_part_at in E by assumption. congruence.
Qed.

(** What [/part (\d+) of (\d+)/] finds: the first [part X of Y] of the
    text, with [X] and [Y] taken whole. *)
Lemma regex_part_first (pre xs ys post s : str) :
  first_part pre xs ys post s -> regex_match re_part s = Some [xs; ys].
Proof.
  revert s. induction pre as [|c pre IH]; intros s (Hat & Hp & Hleft).
  - destruct Hat as (-> & Hx1 & Hx2 & Hy1 & Hy2).
    rewrite regex_match_unfold. cbn [app]. now rewrite exec_part_at.
  - pose proof Hat as (Es & _). cbn [app] in Es. destruct s as [|c' s]; [discriminate|].
    injection Es as -> Es.
    rewrite regex_match_unfold.
    destruct (exec_at re_part (c :: s)) as [caps|] eqn:E.
    + destruct (exec_part_some _ _ E) as (xs' & ys' & post' & Hat' & _).
      specialize (Hleft _ _ _ _ Hat'). cbn in Hleft. lia.
    + apply IH. split; [now apply part_at_tail in Hat|]. split; [exact Hp|].
      intros pre' xs' ys' post' Hat'.
      specialize (Hleft _ _ _ _ (part_at_cons c _ _ _ _ _ Hat')). cbn in Hleft. lia.
Qed.

Lemma regex_part_some_first (s : str) (caps : list str) :
  regex_match re_part s = Some caps ->
  exists pre xs ys post, first_part pre xs ys post s /\ caps = [xs; ys].
Proof.
  induction s as [|c s IH]; rewrite regex_match_unfold.
  - destruct (exec_at re_part []) as [caps'|] eqn:E; [|discriminate].
    intros [= ->]. destruct (exec_part_some _ _ E) as (xs & ys & post & Hat & Hp & ->).
    exists [], xs, ys, post. split; [|reflexivity]. split; [exact Hat|].
    split; [exact Hp|]. intros. cbn. lia.
  - destruct (exec_at re_part (c :: s)) as [caps'|] eqn:E.
    + intros [= ->]. destruct (exec_part_some _ _ E) as (xs & ys & post & Hat & Hp & ->).
      exists [], xs, ys, post. split; [|reflexivity]. split; [exact Hat|].
      split; [exact Hp|]. intros. cbn. lia.
    + intros H. destruct (IH H) as (pre & xs & ys & post & (Hat & Hp & Hleft) & ->).
      exists (c :: pre), xs, ys, post. split; [|reflexivity].
      split; [now apply part_at_cons|]. split; [exact Hp|].
      intros pre' xs' ys' post' Hat'. destruct pre' as [|c' pre'].
      * apply part_at_start_exec in Hat'. congruence.
      * pose proof (part_at_head _ _ _ _ _ _ _ Hat') as ->.
        apply part_at_tail in Hat'. specialize (Hleft _ _ _ _ Hat'). cbn. lia.
Qed.

Lemma none_before_spec (p : pattern) (n : nat) (pre s : str) :
  none_before p n (pre ++ s) = true -> (List.length pre < n)%nat ->
  exec_at p s = None.
Proof.
  revert n. induction pre as [|c pre IH]; intros n H Hn.
  - destruct n; [lia|]. cbn [app none_before] in H.
    destruct (exec_at p s); [discriminate|reflexivity].
  - destruct n; [cbn in Hn; lia|]. cbn [app none_before] in H.
    destruct (exec_at p (c :: pre ++ s)); [discriminate|].
    apply (IH n H). cbn in Hn. lia.
Qed.

(** A way to check [first_part] on a given text. *)
Lemma first_part_check (pre xs ys post s : str) :
  part_at pre xs ys post s -> starts_with_digit post = false ->
  none_before re_part (List.length pre) s = true ->
  first_part pre xs ys post s.
Proof.
  intros Hat Hp Hn. split; [exact Hat|]. split; [exact Hp|].
  intros pre' xs' ys' post' Hat'.
  destruct (Nat.le_gt_cases (List.length pre) (List.length pre')) as [H|H]; [exact H|].
  exfalso. destruct Hat' as (E & Hx).
  rewrite E in Hn. pose proof (none_before_spec _ _ _ _ Hn H) as Hnone.
  now apply part_at_exec in Hnone.
Qed.

Lemma has_part_at (xs ys s : str) :
  has_part xs ys s <-> exists pre post, part_at pre xs ys post s.
Proof. unfold has_part, part_at. reflexivity. Qed.

Lemma first_part_rule (pre xs ys post s : str) :
  reaches_transcribing s = true -> includes (js "Transcribing") s = true ->
  first_part pre xs ys post s -> part_rule s = Some (xs, ys).
Proof.
  intros Hr Ht Hf. unfold part_rule. now rewrite Hr, Ht, (regex_part_first _ _ _ _ _ Hf).
Qed.

End PartPatternFacts.

(** ** The completion signal *)

Section CompletionFacts.

(** Line 120 tests exactly that. *)
Lemma completion_signal_spec (data : report) :
  completion_signal data = true <-> signals_completion data.
Proof.
  unfold completion_signal, signals_completion, field_truthy, field_text. split.
  - intros H. apply orb_true_iff in H as [H|H]; [now left|].
    destruct (progress data) as [text|]; [|discriminate].
    apply andb_true_iff in H as [_ H]. right. now exists text.
  - intros [->|(text & -> & H)]; [reflexivity|].
    destruct text as [|c text]; [discriminate|]. cbn [JsString.truthy andb].
    rewrite H. apply orb_true_r.
Qed.

Lemma completion_signal_false (data : report) :
  completion_signal data = false <-> ~ signals_completion data.
Proof.
  rewrite <- completion_signal_spec. destruct (completion_signal data); split;
    (discriminate || congruence || auto).
Qed.

Lemma error_message_truthy (data : report) (message : str) :
  error data = Some message -> message <> [] ->
  field_truthy (error data) = true /\ field_text (error data) = message /\
  (forall default, JsString.or_else message default = message).
Proof.
  intros -> Hne. destruct message as [|c m]; [contradiction|]. repeat split.
Qed.

Lemma checkProgress_response_completes (w : world) (data : report) :
  completion_signal data = true ->
  let w' := checkProgress_response (Response true data) w in
  progressText_textContent w' = js "Transcription completed!" /\
  progressBar_value w' = lit 100 /\
  sent w' = PostCleanup :: sent w /\
  pending w' = K_cleanup data :: pending w.
Proof.
  intros Hc w'. subst w'. unfold checkProgress_response. cbn [negb].
  rewrite Hc. cbn [try_catch].
  set (w0 := if field_truthy (progress data) then _ else w).
  assert (Hf : sent w0 = sent w /\ pending w0 = pending w).
  { subst w0. destruct (field_truthy (progress data)); [|split; reflexivity].
    match goal with |- context [updateUI ?st w] =>
      destruct (updateUI_frame st w) as (_ & _ & _ & _ & -> & ->) end.
    split; reflexivity. }
  destruct Hf as [Hs Hp].
  match goal with |- context [updateUI ?st w0] =>
    destruct (updateUI_frame st w0) as (_ & _ & _ & _ & F5 & F6);
    destruct (updateUI_shows st w0) as (_ & _ & S3 & S4);
    destruct (resetState_spec (updateUI st w0))
      as (_ & _ & _ & _ & _ & _ & R7 & R8 & R9 & R10 & _) end.
  cbn [fetch set_network progressText_textContent progressBar_value sent pending].
  rewrite R7, R8, R9, R10, F5, F6, S3, S4, Hs, Hp.
  repeat split.
Qed.

End CompletionFacts.

(** * The claims *)

(** C1.  For every input string that contains a run of digits immediately
    followed by [%], [parseProgress] returns that digit run parsed as an
    integer: the leftmost such run, taken whole, through [parseInt], which is
    the integer itself below [2^53]. *)
Theorem parseProgress_percent (s : str) :
  has_digit_percent s ->
  (exists pre ds post,
      s = pre ++ ds ++ js "%" ++ post /\ ds <> [] /\
      forallb is_digit ds = true /\
      ~ has_digit_percent pre /\ ends_with_digit pre = false /\
      parseProgress s = parseInt ds) /\
  (forall pre ds post,
      s = pre ++ ds ++ js "%" ++ post -> ds <> [] ->
      forallb is_digit ds = true ->
      ~ has_digit_percent pre -> ends_with_digit pre = false ->
      parseProgress s = parseInt ds /\
      (decimal ds < 2 ^ 53 -> parseProgress s = lit (decimal ds))).
Proof.
  intros H. split.
  - apply regex_percent_found in H.
    destruct (regex_match re_percent s) as [caps|] eqn:E; [|contradiction].
    destruct (regex_percent_some _ _ E) as (pre & ds & post & -> & _ & Hne & Hds & Hpre & Hend).
    apply regex_percent_none in Hpre.
    exists pre, ds, post. repeat split; auto. now apply parseProgress_percent_at.
  - intros pre ds post -> Hne Hds Hpre Hend.
    rewrite parseProgress_percent_at by assumption. split; [reflexivity|].
    intros Hlt. now apply parseInt_small.
Qed.

Lemma parseProgress_percent_witness :
  has_digit_percent (js "Process completed 100%") /\
  parseProgress (js "Process completed 100%") = lit 100.
Proof.
  assert (H : has_digit_percent (js "Process completed 100%")).
  { exists (js "Process completed 10"), 48%N, []. split; reflexivity. }
  split; [exact H|].
  destruct (parseProgress_percent _ H) as [_ H2].
  destruct (H2 (js "Process completed ") (js "100") [] eq_refl) as [_ H3].
  - discriminate.
  - reflexivity.
  - apply regex_percent_none. reflexivity.
  - reflexivity.
  - apply H3. reflexivity.
Defined.

(** C2, as stated, fails: [parseProgress] returns 150 on ["150%"], and a
    value that is no integer on ["Transcribing part 1 of 3"]. *)
Lemma parseProgress_range_counterexample :
  parseProgress (js "150%") = lit 150 /\
  ~ between 0 100 (parseProgress (js "150%")) /\
  ~ is_integer (parseProgress (js "Transcribing part 1 of 3")).
Proof.
  assert (E1 : parseProgress (js "150%") = lit 150) by (vm_compute; reflexivity).
  assert (E2 : parseProgress (js "Transcribing part 1 of 3")
               = Fin (7975124340135253 # 140737488355328))
    by (vm_compute; reflexivity).
  rewrite E1, E2. split; [reflexivity|]. split.
  - intros (q & Hq & _ & Hle). injection Hq as <-. now apply Hle.
  - intros (n & Hn). unfold inject_Z in Hn. congruence.
Qed.

(** C2, amended.  For every input string, the value [parseProgress] returns
    is a number from 0 to 100 provided that the digit run captured by the
    percent rule, if any, spells at most 100 and that, when the
    [part X of Y] rule is the one that returns, [0 < Y], [X <= Y] and
    [parseInt X] is finite; it is an integer whenever that rule is not the
    one that returns. *)
Theorem parseProgress_range (s : str) :
  (forall ds caps,
      includes (js "%") s = true ->
      regex_match re_percent s = Some (ds :: caps) -> decimal ds <= 100) ->
  (forall xs ys,
      part_rule s = Some (xs, ys) ->
      0 < decimal ys /\ decimal xs <= decimal ys /\ is_finite (parseInt xs)) ->
  between 0 100 (parseProgress s) /\
  (part_rule s = None -> is_integer (parseProgress s)).
Proof.
  intros Hpct Hpart.
  destruct (part_rule s) as [[xs ys]|] eqn:Epart.
  - split; [|discriminate].
    rewrite (part_rule_value _ _ _ Epart).
    destruct (Hpart _ _ eq_refl) as (Hy & Hxy & Hfin).
    destruct (part_rule_some _ _ _ Epart) as ((_ & _ & _ & _ & Hx & _) & _).
    apply (between_weaken 40 90); [discriminate|discriminate|].
    now apply part_value_between.
  - clear Hpart.
    assert (Hgoal : exists n, 0 <= n <= 100 /\ parseProgress s = lit n).
    { destruct (reaches_transcribing s) eqn:Er.
      - rewrite (part_rule_none _ Er Epart).
        destruct (includes (js "completed") s); [exists 100|exists 0]; split; (lia || reflexivity).
      - clear Epart. unfold reaches_transcribing in Er. unfold parseProgress.
        destruct (includes (js "%") s) eqn:Ep.
        + destruct (regex_match re_percent s) as [caps|] eqn:E.
          * destruct (regex_percent_some _ _ E) as (pre & ds & post & _ & -> & _ & Hds & _).
            pose proof (Hpct ds [] eq_refl eq_refl) as Hle.
            exists (decimal ds). rewrite parseInt_small by (auto; lia).
            split; [|reflexivity]. split; [now apply decimal_nonneg|exact Hle].
          * exists 0. split; [lia|reflexivity].
        + destruct (includes (js "Starting") s); [exists 5; split; [lia|reflexivity]|].
          destruct (includes (js "download") s); [exists 20; split; [lia|reflexivity]|].
          destruct (includes (js "Processing") s); [exists 40; split; [lia|reflexivity]|].
          discriminate. }
    destruct Hgoal as (n & Hn & ->). split.
    + now apply (between_lit 0 100).
    + intros _. apply is_integer_lit.
Qed.

Lemma parseProgress_range_witness :
  between 0 100 (parseProgress (js "Transcribing part 3 of 10")).
Proof.
  apply (parseProgress_range (js "Transcribing part 3 of 10")).
  - intros ds caps H. vm_compute in H. discriminate.
  - intros xs ys H. vm_compute in H. injection H as <- <-.
    split; [reflexivity|]. split; [vm_compute; discriminate|].
    exists 3%Q. vm_compute. reflexivity.
Defined.

(** C3, as stated, fails: on ["Transcribing part 5 of 2"] the value is 165,
    above 90; and a text with a [%] that no digit precedes returns 0 whatever
    [part X of Y] it has. *)
Lemma parseProgress_part_counterexample :
  let s := js "Transcribing part 5 of 2" in
  let s' := js "Transcribing part 1 of 2 %" in
  (includes (js "Transcribing") s = true /\ has_part (js "5") (js "2") s /\
   ~ has_digit_percent s /\ includes (js "Starting") s = false /\
   includes (js "download") s = false /\ includes (js "Processing") s = false /\
   parseProgress s = lit 165 /\ ~ at_most 90 (parseProgress s)) /\
  (includes (js "Transcribing") s' = true /\ has_part (js "1") (js "2") s' /\
   ~ has_digit_percent s' /\ includes (js "Starting") s' = false /\
   includes (js "download") s' = false /\ includes (js "Processing") s' = false /\
   parseProgress s' = lit 0 /\ part_value (js "1") (js "2") = lit 65).
Proof.
  cbv zeta.
  assert (E1 : parseProgress (js "Transcribing part 5 of 2") = lit 165)
    by (vm_compute; reflexivity).
  assert (E2 : parseProgress (js "Transcribing part 1 of 2 %") = lit 0)
    by (vm_compute; reflexivity).
  assert (E3 : part_value (js "1") (js "2") = lit 65) by (vm_compute; reflexivity).
  rewrite E1, E2, E3. split.
  - split; [vm_compute; reflexivity|]. split.
    { exists (js "Transcribing "), []. repeat split; discriminate. }
    split; [apply regex_percent_none; vm_compute; reflexivity|].
    repeat (split; [vm_compute; reflexivity|]).
    intros (q & Hq & Hle). injection Hq as <-. now apply Hle.
  - split; [vm_compute; reflexivity|]. split.
    { exists (js "Transcribing "), (js " %"). repeat split; discriminate. }
    split; [apply regex_percent_none; vm_compute; reflexivity|].
    repeat (split; [vm_compute; reflexivity|]). reflexivity.
Qed.

(** C3, amended.  For every input string that contains [Transcribing] and
    a [part X of Y] text, and no [%], [Starting], [download] or [Processing],
    [parseProgress] returns [40 + (X/Y)*50] for the first [part X of Y] of
    the text, with [X] and [Y] taken whole; this value lies between 40 and 90
    whenever [0 < Y], [X <= Y] and [parseInt X] is finite. *)
Theorem parseProgress_part (s : str) :
  reaches_transcribing s = true -> includes (js "Transcribing") s = true ->
  (forall xs ys,
      has_part xs ys s -> exists pre xs' ys' post, first_part pre xs' ys' post s) /\
  (forall pre xs ys post,
      first_part pre xs ys post s ->
      parseProgress s = part_value xs ys /\
      (0 < decimal ys -> decimal xs <= decimal ys -> is_finite (parseInt xs) ->
       between 40 90 (parseProgress s))).
Proof.
  intros Hr Ht. split.
  - intros xs ys Hp. destruct (regex_part_found _ _ _ Hp) as (xs' & ys' & E & _).
    destruct (regex_part_some_first _ _ E) as (pre & xs1 & ys1 & post & Hf & _).
    now exists pre, xs1, ys1, post.
  - intros pre xs ys post Hf.
    pose proof (first_part_rule _ _ _ _ _ Hr Ht Hf) as E.
    rewrite (part_rule_value _ _ _ E). split; [reflexivity|].
    intros Hy Hxy Hfin. destruct Hf as ((_ & _ & Hx & _) & _).
    now apply part_value_between.
Qed.

Lemma parseProgress_part_witness :
  parseProgress (js "Transcribing part 3 of 10") = lit 55 /\
  between 40 90 (parseProgress (js "Transcribing part 3 of 10")).
Proof.
  assert (Hf : first_part (js "Transcribing ") (js "3") (js "10") []
                 (js "Transcribing part 3 of 10")).
  { apply first_part_check.
    - repeat split; discriminate.
    - reflexivity.
    - vm_compute. reflexivity. }
  destruct (parseProgress_part (js "Transcribing part 3 of 10") eq_refl eq_refl)
    as [_ H].
  destruct (H _ _ _ _ Hf) as [H1 H2]. split.
  - rewrite H1. vm_compute. reflexivity.
  - apply H2; [reflexivity|vm_compute; discriminate|].
    exists 3%Q. vm_compute. reflexivity.
Defined.




(** C5.  For every submission attempt where the trimmed URL is empty, or is
    non-empty but contains neither [youtube.com/] nor [youtu.be/], no network
    request is issued, a validation error message is shown, and the session
    is left not busy with the controls enabled. *)
Theorem on_click_invalid (w : world) :
  let url := trim (urlInput_value w) in
  url = [] \/
  (url <> [] /\ includes (js "youtube.com/") url = false /\
   includes (js "youtu.be/") url = false) ->
  let w' := on_click w in
  sent w' = sent w /\ pending w' = pending w /\
  shows_error (if JsString.truthy url
               then js "Please enter a valid YouTube URL"
               else js "Please enter a YouTube URL") w'.
Proof.
  intros url H w'. subst w'. unfold on_click. fold url.
  destruct H as [->|(Hne & H1 & H2)].
  - cbn [JsString.truthy negb].
    destruct (showError_spec (js "Please enter a YouTube URL") w) as (Hs & _ & _ & -> & -> & _).
    auto.
  - destruct url as [|c url']; [contradiction|]. cbn [JsString.truthy negb].
    rewrite H1, H2. cbn [negb andb].
    destruct (showError_spec (js "Please enter a valid YouTube URL") w) as (Hs & _ & _ & -> & -> & _).
    auto.
Qed.

Lemma on_click_invalid_witness :
  sent (on_click blank) = [] /\
  shows_error (js "Please enter a YouTube URL") (on_click blank).
Proof.
  destruct (on_click_invalid blank (or_introl eq_refl)) as (H1 & _ & H3).
  split; [exact H1|exact H3].
Defined.

(** C6, as stated, fails: a response that is not ok is treated as a failure
    before its payload is looked at, so with [finished] set the bar is not
    put to 100 and no cleanup request is issued. *)
Lemma checkProgress_completion_counterexample :
  let data := {| progress := None; transcription := None; finished := true;
                 error := None |} in
  let w' := resume K_progress (Response false data)
              (set_network (sent demo_ticked) [] demo_ticked) in
  reachable demo_ticked /\ pending demo_ticked = [] ++ K_progress :: [] /\
  finished data = true /\
  progressBar_value w' = lit 0 /\ progressBar_value w' <> lit 100 /\
  ~ In PostCleanup (sent w').
Proof.
  cbv zeta. split; [exact demo_ticked_reachable|].
  split; [vm_compute; reflexivity|]. split; [reflexivity|].
  split; [vm_compute; reflexivity|]. split; [vm_compute; discriminate|].
  vm_compute. intros [H|[H|[]]]; discriminate.
Qed.

(** C6, amended.  For every polling tick whose response is ok and has
    [finished] set (or whose progress text contains [completed]), the
    handler sets the displayed progress to 100, resets the session state so
    that no timer is left to run further ticks, and issues exactly one
    cleanup request: one when the response arrives, none when that request
    settles. *)
Theorem checkProgress_completion
  (w : world) (before after : list continuation) (data : report) :
  reachable w ->
  pending w = before ++ K_progress :: after ->
  signals_completion data ->
  let w' := resume K_progress (Response true data)
              (set_network (sent w) (before ++ after) w) in
  step w w' /\
  progressBar_value w' = lit 100 /\
  isTranscribing w' = false /\ progressInterval w' = None /\
  timers w' = [] /\
  transcribeButton_disabled w' = false /\ urlInput_disabled w' = false /\
  sent w' = PostCleanup :: sent w /\
  pending w' = K_cleanup data :: before ++ after /\
  (forall r w2,
      sent (checkProgress_cleaned data r w2) = sent w2 /\
      progressBar_value (checkProgress_cleaned data r w2) = progressBar_value w2).
Proof.
  intros Hr Hp Hc w'. apply completion_signal_spec in Hc. split; [now apply step_settle|].
  subst w'. cbn [resume]. unfold checkProgress_response. cbn [negb]. rewrite Hc.
  cbn [try_catch].
  set (w0 := set_network (sent w) (before ++ after) w).
  set (w1 := if field_truthy (progress data) then _ else w0).
  set (st := {| ui_isTranscribing := false; ui_progress := lit 100;
                ui_message := js "Transcription completed!";
                ui_transcription := transcription data |}).
  assert (Hinv : timer_inv (updateUI st w1)).
  { apply timer_inv_updateUI. subst w1.
    destruct (field_truthy (progress data)).
    - now apply timer_inv_updateUI, timer_inv_network, timer_inv_reachable.
    - now apply timer_inv_network, timer_inv_reachable. }
  assert (Hf1 : sent w1 = sent w /\ pending w1 = before ++ after).
  { subst w1. destruct (field_truthy (progress data)); [|split; reflexivity].
    destruct (updateUI_frame
                {| ui_isTranscribing := true;
                   ui_progress := parseProgress (field_text (progress data));
                   ui_message := field_text (progress data);
                   ui_transcription := transcription data |} w0)
      as (_ & _ & _ & _ & -> & ->). split; reflexivity. }
  destruct Hf1 as [Hs1 Hp1].
  destruct (updateUI_frame st w1) as (_ & Hpi & Hti & _ & Hs2 & Hp2).
  destruct (updateUI_shows st w1) as (_ & _ & Hbar & _).
  destruct (resetState_spec (updateUI st w1))
    as (R1 & R2 & R3 & R4 & R5 & _ & R7 & R8 & R9 & _).
  pose proof (timer_inv_reset _ Hinv) as [Hown _].
  unfold own_timer in Hown. rewrite R2 in Hown.
  cbn [fetch set_network progressBar_value isTranscribing progressInterval timers
       transcribeButton_disabled urlInput_disabled sent pending].
  rewrite R1, R2, R3, R4, R9, Hbar, Hown, R7, R8, Hs2, Hp2, Hs1, Hp1.
  repeat split; try reflexivity.
  - apply checkProgress_cleaned_frame.
  - apply checkProgress_cleaned_frame.
Qed.

Lemma checkProgress_completion_witness :
  let data := {| progress := Some (js "Transcription completed");
                 transcription := Some (js "hello");
                 finished := false; error := None |} in
  let w' := resume K_progress (Response true data)
              (set_network (sent demo_ticked) [] demo_ticked) in
  progressBar_value w' = lit 100 /\ timers w' = [] /\
  sent w' = PostCleanup :: sent demo_ticked.
Proof.
  cbv zeta.
  assert (Hp : pending demo_ticked = [] ++ K_progress :: [])
    by (vm_compute; reflexivity).
  assert (Hs : signals_completion
                 {| progress := Some (js "Transcription completed");
                    transcription := Some (js "hello");
                    finished := false; error := None |}).
  { right. exists (js "Transcription completed"). split; [reflexivity|].
    vm_compute. reflexivity. }
  destruct (checkProgress_completion demo_ticked [] [] _
              demo_ticked_reachable Hp Hs)
    as (_ & Hb & _ & _ & Ht & _ & _ & Hsent & _).
  split; [exact Hb|]. split; [exact Ht|exact Hsent].
Defined.

(** C7, as stated, fails: when an ok payload has [finished] set as well as
    an error, the tick shows [Transcription completed!], not the error; and
    when the cleanup request is then rejected, it is the message of that
    rejection that is shown, never the payload's. *)
Lemma checkProgress_error_field_counterexample :
  let data := {| progress := None; transcription := None; finished := true;
                 error := Some (js "boom") |} in
  let w1 := checkProgress_response (Response true data) blank in
  let w2 := checkProgress_cleaned data (Rejected (js "Failed to fetch")) w1 in
  progressText_textContent w1 = js "Transcription completed!" /\
  progressText_color w1 <> js "red" /\
  progressText_textContent w2 = js "Error: Failed to fetch" /\
  ~ shows_error (js "boom") w1 /\ ~ shows_error (js "boom") w2.
Proof.
  cbv zeta. split; [vm_compute; reflexivity|]. split; [vm_compute; discriminate|].
  split; [vm_compute; reflexivity|]. split.
  - intros (H & _). vm_compute in H. discriminate.
  - intros (H & _). vm_compute in H. discriminate.
Qed.

(** C7, amended.  For every polling tick whose response payload has a
    non-empty [error] field, whatever the other fields: when the response is
    not ok, or signals no completion, the error message is displayed and the
    state reset at once; when an ok response signals completion as well, the
    completion is handled first (display at 100, reset, cleanup request) and
    the error message is displayed and the state reset when the cleanup
    request is answered. *)
Theorem checkProgress_error_field
  (w : world) (ok : bool) (data : report) (message : str) :
  error data = Some message -> message <> [] ->
  let w' := checkProgress_response (Response ok data) w in
  (ok = false \/ ~ signals_completion data -> shows_error message w') /\
  (ok = true -> signals_completion data ->
   progressText_textContent w' = js "Transcription completed!" /\
   progressBar_value w' = lit 100 /\
   sent w' = PostCleanup :: sent w /\
   pending w' = K_cleanup data :: pending w /\
   forall ok' d w2,
     shows_error message (checkProgress_cleaned data (Response ok' d) w2)).
Proof.
  intros He Hne w'.
  destruct (error_message_truthy data message He Hne) as (Ht & Hx & Hor).
  split.
  - intros H. subst w'. unfold checkProgress_response, checkProgress_catch.
    destruct ok; cbn [negb].
    + destruct H as [H|H]; [discriminate|].
      apply completion_signal_false in H. rewrite H.
      unfold checkProgress_errors. rewrite Ht, Hx. cbn [try_catch].
      rewrite Hor. apply showError_spec.
    + cbn [try_catch]. rewrite Hx, !Hor. apply showError_spec.
  - intros -> Hs. apply completion_signal_spec in Hs.
    destruct (checkProgress_response_completes w data Hs) as (H1 & H2 & H3 & H4).
    subst w'. do 4 (split; [assumption|]).
    intros ok' d w2. unfold checkProgress_cleaned, checkProgress_errors, checkProgress_catch.
    rewrite Ht, Hx. cbn [try_catch]. rewrite Hor. apply showError_spec.
Qed.

Lemma checkProgress_error_field_witness :
  let data := {| progress := Some (js "Transcribing part 1 of 2");
                 transcription := None; finished := false;
                 error := Some (js "boom") |} in
  let data' := {| progress := None; transcription := None; finished := true;
                  error := Some (js "boom") |} in
  shows_error (js "boom") (checkProgress_response (Response true data) blank) /\
  shows_error (js "boom") (checkProgress_cleaned data' (Response true data') blank).
Proof.
  cbv zeta. split.
  - destruct (checkProgress_error_field blank true
                {| progress := Some (js "Transcribing part 1 of 2");
                   transcription := None; finished := false;
                   error := Some (js "boom") |} (js "boom") eq_refl) as [H _];
      [discriminate|].
    apply H. right. intros [H1|(text & H1 & H2)]; [discriminate|].
    injection H1 as <-. vm_compute in H2. discriminate.
  - destruct (checkProgress_error_field blank true
                {| progress := None; transcription := None; finished := true;
                   error := Some (js "boom") |} (js "boom") eq_refl) as [_ H];
      [discriminate|].
    destruct (H eq_refl (or_introl eq_refl)) as (_ & _ & _ & _ & H5). apply H5.
Defined.

(** C8.  In every reachable session state at most one polling timer is
    active, the one the session holds the handle of; starting a new poll
    first cancels any prior timer; resetting the state when no timer is
    active leaves the timers alone, and cancelling twice, or cancelling an
    absent timer, changes nothing. *)
Theorem one_polling_timer :
  (forall w, reachable w ->
             timers w = own_timer w /\ (List.length (timers w) <= 1)%nat) /\
  (forall w, reachable w ->
             timers (startProgressChecking w) = [next_timer w] /\
             progressInterval (startProgressChecking w) = Some (next_timer w) /\
             forall t, progressInterval w = Some t ->
                       ~ In t (timers (startProgressChecking w))) /\
  (forall w, progressInterval w = None ->
             timers (resetState w) = timers w /\
             progressInterval (resetState w) = None) /\
  (forall w, timers (resetState (resetState w)) = timers (resetState w)) /\
  (forall t w, ~ In t (timers w) -> timers (clearInterval t w) = timers w).
Proof.
  split; [|split; [|split; [|split]]].
  - intros w H. apply timer_inv_reachable in H as [Hw _]. split; [exact Hw|].
    rewrite Hw. unfold own_timer. destruct (progressInterval w); cbn; lia.
  - intros w H. apply timer_inv_reachable in H.
    destruct (startProgressChecking_spec w H) as (H1 & H2 & _ & H3 & _). auto.
  - intros w H. destruct (resetState_spec w) as (_ & Hp & _ & _ & Ht & _).
    rewrite Ht, H. auto.
  - intros w. apply resetState_idempotent_timers.
  - intros t w H. cbn. now apply filter_absent.
Qed.

Lemma one_polling_timer_witness :
  timers demo_ticked = own_timer demo_ticked /\
  (List.length (timers demo_ticked) <= 1)%nat.
Proof.
  destruct one_polling_timer as [H _]. exact (H demo_ticked demo_ticked_reachable).
Defined.

(** C9.  Stage-keyword matching is case-sensitive containment:
    ["Downloading video"] does not contain [download], no rule fires and
    [parseProgress] returns 0, where ["downloading video"] gives 20. *)
Theorem parseProgress_case_sensitive :
  includes (js "download") (js "Downloading video") = false /\
  parseProgress (js "Downloading video") = lit 0 /\
  parseProgress (js "downloading video") = lit 20.
Proof. repeat split; vm_compute; reflexivity. Qed.

(** C10.  The division of the [part X of Y] rule is unguarded: on
    ["Transcribing part 1 of 0"] the result is [Infinity], and whenever the
    rule returns with [Y = 0] the result is no finite number, hence no value
    from 0 to 100. *)
Theorem parseProgress_zero_total :
  parseProgress (js "Transcribing part 1 of 0") = Inf false /\
  (forall s xs ys,
      part_rule s = Some (xs, ys) -> decimal ys = 0 ->
      ~ is_finite (parseProgress s) /\ ~ between 0 100 (parseProgress s)).
Proof.
  split; [vm_compute; reflexivity|].
  intros s xs ys Hr Hy.
  assert (Hn : ~ is_finite (parseProgress s)).
  { rewrite (part_rule_value _ _ _ Hr). unfold part_value, parseInt at 2.
    rewrite Hy. change (round64 (inject_Z 0)) with (Fin 0).
    intros [q Hq]. destruct (parseInt xs) as [a|sg|]; cbn in Hq.
    - destruct (is_zero a); cbn in Hq; discriminate.
    - discriminate.
    - discriminate. }
  split; [exact Hn|]. intros (q & Hq & _). apply Hn. now exists q.
Qed.

Lemma parseProgress_zero_total_witness :
  ~ is_finite (parseProgress (js "Transcribing part 0 of 0")).
Proof.
  destruct parseProgress_zero_total as [_ H].
  destruct (H (js "Transcribing part 0 of 0") (js "0") (js "0") eq_refl eq_refl)
    as [Hn _].
  exact Hn.
Defined.

(** * Further properties *)

Lemma round64_nonneg (q : Q) : (0 <= q)%Q -> bar_ok (round64 q).
Proof.
  intros H. pose proof (round64_mono 0 q (Qle_refl 0) H) as M.
  change (round64 0) with (Fin 0) in M.
  destruct (round64 q); simpl in *; auto.
Qed.

Lemma bar_ok_nonneg (x : number) : bar_ok x -> nonneg x.
Proof. destruct x; simpl; auto. Qed.

Lemma is_neg_nonneg (q : Q) : (0 <= q)%Q -> is_neg q = false.
Proof. unfold is_neg, Qle. simpl. intros H. apply Z.ltb_ge. lia. Qed.

Lemma nonneg_div (x y : number) : nonneg x -> nonneg y -> nonneg (div x y).
Proof.
  destruct x as [a|s|], y as [b|t|]; simpl; intros Hx Hy; auto.
  - destruct (is_zero b) eqn:Eb.
    + destruct (is_zero a); simpl; auto. now apply is_neg_nonneg.
    + apply bar_ok_nonneg, round64_nonneg.
      unfold is_zero in Eb. apply Z.eqb_neq in Eb.
      assert (0 < b)%Q by (unfold Qlt, Qle in *; simpl in *; lia).
      apply Qle_shift_div_l; [assumption|]. now rewrite Qmult_0_l.
  - apply Qle_refl.
  - subst s. now rewrite is_neg_nonneg.
Qed.

Lemma nonneg_mul (x y : number) : nonneg x -> nonneg y -> nonneg (mul x y).
Proof.
  destruct x as [a|s|], y as [b|t|]; simpl; intros Hx Hy; auto.
  - apply bar_ok_nonneg, round64_nonneg. now apply Qmult_le_0_compat.
  - subst t. destruct (is_zero a); simpl; auto. now rewrite is_neg_nonneg.
  - subst s. destruct (is_zero b); simpl; auto. now rewrite is_neg_nonneg.
  - now subst.
Qed.

Lemma nonneg_add (x y : number) : nonneg x -> nonneg y -> nonneg (add x y).
Proof.
  destruct x as [a|s|], y as [b|t|]; simpl; intros Hx Hy; auto.
  - apply bar_ok_nonneg, round64_nonneg.
    change 0%Q with (0 + 0)%Q. now apply Qplus_le_compat.
  - subst. reflexivity.
Qed.

Lemma nonneg_lit (n : Z) : 0 <= n -> nonneg (lit n).
Proof. intros H. simpl. unfold Qle. simpl. lia. Qed.

Lemma nonneg_parseInt (ds : str) : forallb is_digit ds = true -> nonneg (parseInt ds).
Proof.
  intros H. apply bar_ok_nonneg, round64_nonneg.
  apply (inject_Z_le 0). now apply decimal_nonneg.
Qed.

Lemma parseProgress_is_nonneg (s : str) : nonneg (parseProgress s).
Proof.
  destruct (part_rule s) as [[xs ys]|] eqn:Epart.
  - rewrite (part_rule_value _ _ _ Epart).
    destruct (part_rule_some _ _ _ Epart) as ((_ & _ & _ & _ & Hx & _ & Hy) & _).
    unfold part_value. apply nonneg_add; [now apply nonneg_lit|].
    apply nonneg_mul; [|now apply nonneg_lit].
    apply nonneg_div; now apply nonneg_parseInt.
  - destruct (reaches_transcribing s) eqn:Er.
    + rewrite (part_rule_none _ Er Epart).
      destruct (includes (js "completed") s); now apply nonneg_lit.
    + clear Epart. unfold reaches_transcribing in Er. unfold parseProgress.
      destruct (includes (js "%") s).
      * destruct (regex_match re_percent s) as [caps|] eqn:E; [|now apply nonneg_lit].
        destruct (regex_percent_some _ _ E) as (pre & ds & post & _ & -> & _ & Hds & _).
        now apply nonneg_parseInt.
      * destruct (includes (js "Starting") s); [now apply nonneg_lit|].
        destruct (includes (js "download") s); [now apply nonneg_lit|].
        destruct (includes (js "Processing") s); [now apply nonneg_lit|].
        discriminate.
Qed.

(** X1.  [parseProgress] never returns a negative value: for every text the
    result is a finite number from 0, [Infinity] or [NaN]. *)
Theorem parseProgress_nonneg (s : str) : nonneg (parseProgress s).
Proof. apply parseProgress_is_nonneg. Qed.

(** Rounding depends on the value of the rational only. *)
Lemma round64_Qeq (p q : Q) :
  (0 <= p)%Q -> (p == q)%Q -> round64 p = round64 q.
Proof.
  intros Hp E. unfold round64, Qeq, Qle in *. simpl in Hp.
  destruct (Z.compare_spec (Qnum p) 0) as [Ep|Lp|Gp]; [|lia|].
  - destruct (Z.compare_spec (Qnum q) 0) as [Eq|Lq|Gq]; [reflexivity|nia|nia].
  - destruct (Z.compare_spec (Qnum q) 0) as [Eq|Lq|Gq]; [nia|nia|].
    rewrite !round_pos_units.
    assert (Hu : units (Qnum p) (Zpos (Qden p)) = units (Qnum q) (Zpos (Qden q))).
    { apply Z.le_antisymm; apply units_mono; lia. }
    now rewrite Hu.
Qed.

Lemma le_refl_fin (q : Q) : le (Fin q) (Fin q).
Proof. simpl. apply Qle_refl. Qed.

Lemma parseInt_pos (ys : str) :
  0 < decimal ys ->
  (exists b, parseInt ys = Fin b /\ (1 <= b)%Q) \/ parseInt ys = Inf false.
Proof.
  intros Hy.
  assert (H1y : le (lit 1) (parseInt ys)).
  { unfold lit. rewrite <- (round64_int 1) by lia.
    apply round64_mono; [apply (inject_Z_le 0 1); lia|apply inject_Z_le; lia]. }
  destruct (parseInt ys) as [b|s|]; simpl in H1y.
  - left. exists b. auto.
  - right. now subst.
  - contradiction.
Qed.

Lemma is_zero_pos (b : Q) : (1 <= b)%Q -> is_zero b = false /\ (0 < b)%Q.
Proof.
  intros H. assert (Hb : (0 < b)%Q) by (eapply Qlt_le_trans; [|exact H]; reflexivity).
  split; [|exact Hb]. unfold is_zero. apply Z.eqb_neq.
  unfold Qlt in Hb. simpl in Hb. lia.
Qed.

(** X2.  When the [part X of Y] rule returns with [0 < Y], the result is
    exactly 40 for [X = 0] and exactly 90 for [X = Y] (with [parseInt Y]
    finite), however the two runs are spelt. *)
Theorem parseProgress_part_endpoints (s xs ys : str) :
  part_rule s = Some (xs, ys) -> 0 < decimal ys ->
  (decimal xs = 0 -> parseProgress s = lit 40) /\
  (decimal xs = decimal ys -> is_finite (parseInt ys) -> parseProgress s = lit 90).
Proof.
  intros Hr Hy. rewrite (part_rule_value _ _ _ Hr). unfold part_value. split.
  - intros Hx. unfold parseInt at 1. rewrite Hx. change (round64 (inject_Z 0)) with (Fin 0).
    destruct (parseInt_pos ys Hy) as [(b & -> & Hb)| ->].
    + cbn [div]. destruct (is_zero_pos b Hb) as [-> _]. cbn [is_zero].
      vm_compute. reflexivity.
    + vm_compute. reflexivity.
  - intros Hxy [b Hb]. unfold parseInt at 1. rewrite Hxy. fold (parseInt ys).
    destruct (parseInt_pos ys Hy) as [(b' & Hb' & H1)|Hinf]; [|congruence].
    rewrite Hb'. cbn [div]. destruct (is_zero_pos b' H1) as [-> Hpos].
    rewrite (round64_Qeq (b' / b') 1).
    + vm_compute. reflexivity.
    + apply Qle_shift_div_l; [exact Hpos|]. rewrite Qmult_0_l. now apply Qlt_le_weak.
    + unfold Qdiv. apply Qmult_inv_r. now apply Qnot_eq_sym, Qlt_not_eq.
Qed.

Lemma parseProgress_part_endpoints_witness :
  parseProgress (js "Transcribing part 010 of 10") = lit 90.
Proof.
  assert (Hr : part_rule (js "Transcribing part 010 of 10")
               = Some (js "010", js "10")) by (vm_compute; reflexivity).
  destruct (parseProgress_part_endpoints _ _ _ Hr) as [_ H].
  - reflexivity.
  - apply H; [reflexivity|]. exists 10%Q. vm_compute. reflexivity.
Defined.

Lemma le_inf (x : number) : bar_ok x -> le x (Inf false).
Proof. destruct x; simpl; auto. Qed.

Lemma le_from_inf (y : number) : le (Inf false) y -> y = Inf false.
Proof.
  destruct y as [b|t|]; simpl; try discriminate; [|contradiction].
  intros [H|H]; [discriminate|now subst].
Qed.

Lemma mul_lit_inf (k : Z) : 0 < k -> mul (Inf false) (lit k) = Inf false.
Proof.
  intros H. cbn. unfold is_zero, is_neg. cbn.
  destruct (Z.eqb_spec k 0); [lia|]. destruct (Z.ltb_spec k 0); [lia|reflexivity].
Qed.

Lemma mul_lit_mono (c1 c2 : number) (k : Z) :
  0 < k -> bar_ok c1 -> le c1 c2 -> le (mul c1 (lit k)) (mul c2 (lit k)).
Proof.
  intros Hk H1 Hle.
  assert (Hk0 : (0 <= inject_Z k)%Q) by (apply (inject_Z_le 0); lia).
  destruct c1 as [a|s|]; simpl in H1; [|subst s|contradiction].
  - destruct c2 as [b|t|]; simpl in Hle; [| |contradiction].
    + cbn [mul lit]. apply round64_mono.
      * now apply Qmult_le_0_compat.
      * now apply Qmult_le_compat_r.
    + subst t. rewrite mul_lit_inf by assumption.
      apply le_inf. cbn [mul lit]. apply round64_nonneg. now apply Qmult_le_0_compat.
  - apply le_from_inf in Hle. subst c2. rewrite mul_lit_inf by assumption. simpl. auto.
Qed.

Lemma add_lit_mono (c1 c2 : number) (k : Z) :
  0 <= k -> bar_ok c1 -> le c1 c2 -> le (add (lit k) c1) (add (lit k) c2).
Proof.
  intros Hk H1 Hle.
  assert (Hk0 : (0 <= inject_Z k)%Q) by (apply (inject_Z_le 0); lia).
  destruct c1 as [a|s|]; simpl in H1; [|subst s|contradiction].
  - destruct c2 as [b|t|]; simpl in Hle; [| |contradiction].
    + cbn [add lit]. apply round64_mono.
      * change 0%Q with (0 + 0)%Q. now apply Qplus_le_compat.
      * apply Qplus_le_compat; [apply Qle_refl|assumption].
    + subst t. cbn [add lit]. apply le_inf, round64_nonneg.
      change 0%Q with (0 + 0)%Q. now apply Qplus_le_compat.
  - apply le_from_inf in Hle. subst c2. simpl. auto.
Qed.

Lemma bar_ok_mul_lit (c : number) (k : Z) : 0 < k -> bar_ok c -> bar_ok (mul c (lit k)).
Proof.
  intros Hk H. destruct c as [a|s|]; simpl in H; [|subst s|contradiction].
  - cbn [mul lit]. apply round64_nonneg. apply Qmult_le_0_compat; [assumption|].
    apply (inject_Z_le 0); lia.
  - now rewrite mul_lit_inf.
Qed.

(** X3.  The [part X of Y] rule never goes backwards: for the same [Y > 0],
    a larger [X] (within the finite range) gives a result at least as
    large. *)
Theorem parseProgress_part_monotone (s1 s2 xs1 ys1 xs2 ys2 : str) :
  part_rule s1 = Some (xs1, ys1) -> part_rule s2 = Some (xs2, ys2) ->
  decimal ys1 = decimal ys2 -> 0 < decimal ys1 ->
  decimal xs1 <= decimal xs2 -> is_finite (parseInt xs2) ->
  le (parseProgress s1) (parseProgress s2).
Proof.
  intros Hr1 Hr2 Hy Hy0 Hx [a2 Ha2].
  rewrite (part_rule_value _ _ _ Hr1), (part_rule_value _ _ _ Hr2).
  destruct (part_rule_some _ _ _ Hr1) as ((_ & _ & _ & _ & Hd1 & _) & _).
  unfold part_value.
  assert (Ey : parseInt ys2 = parseInt ys1) by (unfold parseInt; now rewrite Hy).
  rewrite Ey.
  pose proof (parseInt_mono xs1 xs2 Hd1 Hx) as Hle. rewrite Ha2 in Hle.
  pose proof (nonneg_parseInt xs1 Hd1) as Hn1.
  destruct (parseInt xs1) as [a1|s|] eqn:Ea1; simpl in Hle, Hn1;
    [|subst; discriminate|contradiction].
  rewrite Ha2.
  assert (Hdiv : bar_ok (div (Fin a1) (parseInt ys1)) /\
                 le (div (Fin a1) (parseInt ys1)) (div (Fin a2) (parseInt ys1))).
  { destruct (parseInt_pos ys1 Hy0) as [(b & -> & Hb)| ->].
    - cbn [div]. destruct (is_zero_pos b Hb) as [-> Hpos].
      assert (H0 : (0 <= a1 / b)%Q).
      { apply Qle_shift_div_l; [exact Hpos|]. now rewrite Qmult_0_l. }
      split; [now apply round64_nonneg|]. apply round64_mono; [exact H0|].
      unfold Qdiv. apply Qmult_le_compat_r; [exact Hle|].
      apply Qlt_le_weak, Qinv_lt_0_compat, Hpos.
    - cbn [div]. split; simpl; apply Qle_refl. }
  destruct Hdiv as [Hok Hdle].
  apply add_lit_mono; [lia| |].
  - apply bar_ok_mul_lit; [lia|exact Hok].
  - apply mul_lit_mono; [lia|exact Hok|exact Hdle].
Qed.

Lemma parseProgress_part_monotone_witness :
  le (parseProgress (js "Transcribing part 1 of 3"))
     (parseProgress (js "Transcribing part 2 of 3")).
Proof.
  assert (H1 : part_rule (js "Transcribing part 1 of 3") = Some (js "1", js "3"))
    by (vm_compute; reflexivity).
  assert (H2 : part_rule (js "Transcribing part 2 of 3") = Some (js "2", js "3"))
    by (vm_compute; reflexivity).
  apply (parseProgress_part_monotone _ _ _ _ _ _ H1 H2).
  - reflexivity.
  - reflexivity.
  - vm_compute. discriminate.
  - exists 2%Q. vm_compute. reflexivity.
Defined.

Lemma on_click_valid_eq (w : world) :
  valid_url (trim (urlInput_value w)) ->
  on_click w =
  handleTranscription (trim (urlInput_value w))
    (JsString.or_else (field_text (model_checked w)) (js "base")) w.
Proof.
  intros [Hne Hm]. unfold on_click.
  destruct (trim (urlInput_value w)) as [|c url] eqn:E; [contradiction|].
  cbn [JsString.truthy negb].
  destruct Hm as [-> | ->]; cbn [negb andb]; [reflexivity|].
  now rewrite andb_false_r.
Qed.

(** X4.  A click with a URL that, trimmed, is not empty and contains
    [youtube.com/] or [youtu.be/] issues exactly one request, [POST
    /transcribe] with the trimmed URL and the checked model ([base] when none
    is checked or its value is empty), marks the session busy, disables the
    controls and shows [Starting transcription...] at 0; it starts no timer
    and leaves the transcription shown alone. *)
Theorem on_click_valid (w : world) :
  let url := trim (urlInput_value w) in
  valid_url url ->
  let w' := on_click w in
  sent w' =
    PostTranscribe url (JsString.or_else (field_text (model_checked w)) (js "base"))
    :: sent w /\
  pending w' = K_transcribe :: pending w /\
  isTranscribing w' = true /\
  transcribeButton_disabled w' = true /\ urlInput_disabled w' = true /\
  progressBar_value w' = lit 0 /\
  progressText_textContent w' = js "Starting transcription..." /\
  transcriptionOutput_value w' = transcriptionOutput_value w /\
  progressInterval w' = progressInterval w /\ timers w' = timers w.
Proof.
  intros url Hv w'. subst w'. rewrite (on_click_valid_eq w Hv). fold url.
  repeat split.
Qed.

Lemma on_click_valid_witness :
  sent (on_click demo_form)
  = [PostTranscribe (js "https://youtu.be/abc") (js "base")] /\
  isTranscribing (on_click demo_form) = true.
Proof.
  assert (Hv : valid_url (trim (urlInput_value demo_form))).
  { split; [discriminate|]. right. vm_compute. reflexivity. }
  destruct (on_click_valid demo_form Hv) as (H1 & _ & H3 & _).
  split; [exact H1|exact H3].
Defined.

Lemma trimStart_spaces (s : str) : forallb is_space s = true -> trimStart s = [].
Proof.
  induction s as [|c s IH]; [reflexivity|]. cbn [forallb trimStart].
  intros H. apply andb_true_iff in H as [-> H]. now apply IH.
Qed.

(** X5.  A URL made of white space only is treated as an empty one: no
    request, and the message [Please enter a YouTube URL]. *)
Theorem on_click_blank_url (w : world) :
  forallb is_space (urlInput_value w) = true ->
  sent (on_click w) = sent w /\
  shows_error (js "Please enter a YouTube URL") (on_click w).
Proof.
  intros H. unfold on_click, trim. rewrite (trimStart_spaces _ H).
  cbn [trimEnd rev trimStart JsString.truthy negb].
  destruct (showError_spec (js "Please enter a YouTube URL") w) as (Hs & _ & _ & -> & _).
  auto.
Qed.

Lemma on_click_blank_url_witness :
  shows_error (js "Please enter a YouTube URL")
    (on_click (set_form (js "   ") None blank)).
Proof.
  destruct (on_click_blank_url (set_form (js "   ") None blank) eq_refl) as [_ H].
  exact H.
Defined.

Lemma or_else_twice (a b : str) :
  b <> [] -> JsString.or_else (JsString.or_else a b) b = JsString.or_else a b.
Proof.
  intros Hb. unfold JsString.or_else at 2 3.
  destruct (JsString.truthy a) eqn:E.
  - unfold JsString.or_else. now rewrite E.
  - unfold JsString.or_else. destruct b; [contradiction|reflexivity].
Qed.

Lemma showError_timers (message : str) (w : world) :
  timer_inv w -> timers (showError message w) = [].
Proof.
  intros H. pose proof (timer_inv_showError message w H) as [Ht _].
  destruct (showError_spec message w) as ((_ & _ & _ & Hp & _) & _).
  unfold own_timer in Ht. now rewrite Hp in Ht.
Qed.

(** X6.  How a submission ends: when the server accepts, polling starts
    and that is all that happens (the state is the one before with one fresh
    timer and its handle); a rejected request or a response that is not ok
    shows the error (the server's text, else [Failed to start
    transcription]), leaves no timer and the controls enabled.  In no case is
    a request issued. *)
Theorem handleTranscription_response_outcome (r : settled) (w : world) :
  timer_inv w ->
  let w' := handleTranscription_response r w in
  sent w' = sent w /\ pending w' = pending w /\
  match r with
  | Response true _ =>
      w' = set_progressInterval (Some (next_timer w))
             (set_timers [next_timer w] (Pos.succ (next_timer w)) w)
  | Response false data =>
      shows_error (JsString.or_else (field_text (error data))
                     (js "Failed to start transcription")) w' /\
      timers w' = []
  | Rejected message =>
      shows_error (JsString.or_else message (js "Failed to start transcription")) w' /\
      timers w' = []
  end.
Proof.
  intros Hinv w'. subst w'. unfold handleTranscription_response, handleTranscription_catch.
  destruct r as [m|[|] data]; cbn [try_catch negb].
  - destruct (showError_spec (JsString.or_else m (js "Failed to start transcription")) w)
      as (Hs & _ & _ & -> & -> & _).
    repeat split; try apply Hs. now apply showError_timers.
  - destruct (startProgressChecking_spec w Hinv) as (_ & _ & _ & _ & -> & ->).
    split; [reflexivity|]. split; [reflexivity|].
    destruct Hinv as [Ht _]. unfold own_timer in Ht.
    destruct w as [tr pi bd ud uv mc bar txt col out ts nt se pe].
    cbn in Ht. subst ts. unfold startProgressChecking. cbn.
    destruct pi as [t|]; cbn; rewrite ?Pos.eqb_refl; reflexivity.
  - rewrite or_else_twice by discriminate.
    destruct (showError_spec (JsString.or_else (field_text (error data))
                                (js "Failed to start transcription")) w)
      as (Hs & _ & _ & -> & -> & _).
    repeat split; try apply Hs. now apply showError_timers.
Qed.

Lemma handleTranscription_response_outcome_witness :
  let bad := {| progress := None; transcription := None;
                finished := false; error := Some (js "Invalid URL") |} in
  let w' := handleTranscription_response (Response false bad) demo_submitted in
  (shows_error (js "Invalid URL") w' /\ timers w' = []) /\
  handleTranscription_response (Response true demo_report) demo_submitted
  = set_progressInterval (Some 1%positive)
      (set_timers [1%positive] 2%positive demo_submitted).
Proof.
  cbv zeta.
  assert (Hinv : timer_inv demo_submitted).
  { apply timer_inv_click, timer_inv_loaded. repeat split. }
  split.
  - destruct (handleTranscription_response_outcome
                (Response false {| progress := None; transcription := None;
                                   finished := false; error := Some (js "Invalid URL") |})
                demo_submitted Hinv) as (_ & _ & H).
    exact H.
  - destruct (handleTranscription_response_outcome
                (Response true demo_report) demo_submitted Hinv) as (_ & _ & H).
    exact H.
Defined.

(** X7.  A failed status request, rejected or not ok, shows the error (its
    message, the server's [error] text, or the default), stops the timer and
    resets the state, and issues no cleanup request; the bar is left as it
    was. *)
Theorem checkProgress_failure (w : world) :
  timer_inv w ->
  (forall message,
      let w' := checkProgress_response (Rejected message) w in
      shows_error (JsString.or_else message (js "Error checking progress")) w' /\
      timers w' = [] /\ sent w' = sent w /\ pending w' = pending w /\
      progressBar_value w' = progressBar_value w) /\
  (forall data,
      let w' := checkProgress_response (Response false data) w in
      shows_error (JsString.or_else (field_text (error data))
                     (js "Failed to check progress")) w' /\
      timers w' = [] /\ sent w' = sent w /\ pending w' = pending w /\
      progressBar_value w' = progressBar_value w).
Proof.
  intros Hinv. unfold checkProgress_response, checkProgress_catch.
  split; [intros m|intros data]; cbn [try_catch negb].
  - destruct (showError_spec (JsString.or_else m (js "Error checking progress")) w)
      as (Hs & _ & _ & -> & -> & ->).
    repeat split; try apply Hs. now apply showError_timers.
  - assert (E : JsString.or_else
                  (JsString.or_else (field_text (error data)) (js "Failed to check progress"))
                  (js "Error checking progress")
                = JsString.or_else (field_text (error data)) (js "Failed to check progress")).
    { unfold JsString.or_else at 2 3.
      destruct (JsString.truthy (field_text (error data))) eqn:Et.
      - unfold JsString.or_else. now rewrite Et.
      - reflexivity. }
    rewrite E.
    destruct (showError_spec (JsString.or_else (field_text (error data))
                                (js "Failed to check progress")) w)
      as (Hs & _ & _ & -> & -> & ->).
    repeat split; try apply Hs. now apply showError_timers.
Qed.

Lemma checkProgress_failure_witness :
  let w' := checkProgress_response (Rejected (js "Failed to fetch")) demo_ticked in
  shows_error (js "Failed to fetch") w' /\ timers w' = [] /\
  timers demo_ticked = [1%positive].
Proof.
  cbv zeta.
  destruct (checkProgress_failure demo_ticked
              (timer_inv_reachable _ demo_ticked_reachable)) as [H _].
  destruct (H (js "Failed to fetch")) as (H1 & H2 & _).
  split; [exact H1|]. split; [exact H2|]. vm_compute. reflexivity.
Defined.

Lemma updateUI_output (st : ui_state) (w : world) :
  transcriptionOutput_value (updateUI st w) =
  (if field_truthy (ui_transcription st) then field_text (ui_transcription st)
   else transcriptionOutput_value w) /\
  progressText_color (updateUI st w) = progressText_color w.
Proof. unfold updateUI. destruct (field_truthy (ui_transcription st)); cbn; tauto. Qed.

(** X8.  A response that reports progress only (no completion, no error)
    disables the button and the input whatever the session state is, also
    after a reset, with no timer running: from then on neither a click nor
    a keypress does anything. *)
Theorem late_progress_locks_form (w : world) (data : report) :
  field_truthy (progress data) = true ->
  completion_signal data = false -> field_truthy (error data) = false ->
  let w' := checkProgress_response (Response true data) w in
  transcribeButton_disabled w' = true /\ urlInput_disabled w' = true /\
  isTranscribing w' = isTranscribing w /\
  progressInterval w' = progressInterval w /\ timers w' = timers w /\
  sent w' = sent w /\
  click w' = w' /\ (forall key, on_keypress key w' = w').
Proof.
  intros Hp Hc He w'. subst w'. unfold checkProgress_response. cbn [negb].
  rewrite Hp, Hc. unfold checkProgress_errors. rewrite He. cbn [try_catch].
  match goal with |- context [updateUI ?st w] =>
    destruct (updateUI_frame st w) as (F1 & F2 & F3 & _ & F5 & _);
    destruct (updateUI_shows st w) as (S1 & S2 & _); set (w' := updateUI st w) in * end.
  cbn [ui_isTranscribing] in S1, S2.
  assert (Hclick : click w' = w') by (unfold click; now rewrite S1).
  repeat split; auto.
  intros key. unfold on_keypress.
  destruct (JsString.eqb key (js "Enter") && negb (isTranscribing w')); auto.
Qed.

Lemma late_progress_locks_form_witness :
  let data := {| progress := Some (js "Processing audio"); transcription := None;
                 finished := false; error := None |} in
  let w' := checkProgress_response (Response true data) blank in
  isTranscribing w' = false /\ timers w' = [] /\
  transcribeButton_disabled w' = true /\ click w' = w'.
Proof.
  cbv zeta.
  destruct (late_progress_locks_form blank
              {| progress := Some (js "Processing audio"); transcription := None;
                 finished := false; error := None |} eq_refl eq_refl eq_refl)
    as (H1 & _ & H3 & _ & H5 & _ & H7 & _).
  repeat split; assumption.
Defined.

Lemma filter_idem (t : timer_id) (l : list timer_id) :
  filter (fun t' => negb (Pos.eqb t t'))
    (filter (fun t' => negb (Pos.eqb t t')) l)
  = filter (fun t' => negb (Pos.eqb t t')) l.
Proof.
  induction l as [|a l IH]; [reflexivity|]. cbn.
  destruct (negb (Pos.eqb t a)) eqn:E; [|exact IH]. cbn. now rewrite E, IH.
Qed.

(** X11.  [resetState] is idempotent on the whole state, and a reset after
    [showError] changes nothing. *)
Theorem resetState_idempotent (w : world) :
  resetState (resetState w) = resetState w /\
  (forall message, resetState (showError message w) = showError message w).
Proof.
  split; [|intros message]; destruct w as [tr pi bd ud uv mc bar txt col out ts nt se pe];
    unfold showError, resetState; cbn; destruct pi; reflexivity.
Qed.

(** X15.  A payload that signals completion and carries an error does
    both: on arrival the display says [Transcription completed!] at 100 and
    the cleanup request leaves; when that request is answered the error is
    shown and the state reset again, the bar staying where it is. *)
Theorem completion_with_error (w : world) (data : report) :
  completion_signal data = true -> field_truthy (error data) = true ->
  let w1 := checkProgress_response (Response true data) w in
  progressText_textContent w1 = js "Transcription completed!" /\
  progressBar_value w1 = lit 100 /\
  sent w1 = PostCleanup :: sent w /\
  pending w1 = K_cleanup data :: pending w /\
  (forall ok d w2,
      let w3 := checkProgress_cleaned data (Response ok d) w2 in
      shows_error (field_text (error data)) w3 /\
      progressBar_value w3 = progressBar_value w2 /\ sent w3 = sent w2).
Proof.
  intros Hc He w1. subst w1. unfold checkProgress_response. cbn [negb].
  rewrite Hc. cbn [try_catch].
  set (w0 := if field_truthy (progress data) then _ else w).
  assert (Hf : sent w0 = sent w /\ pending w0 = pending w).
  { subst w0. destruct (field_truthy (progress data)); [|split; reflexivity].
    match goal with |- context [updateUI ?st w] =>
      destruct (updateUI_frame st w) as (_ & _ & _ & _ & -> & ->) end.
    split; reflexivity. }
  destruct Hf as [Hs Hp].
  match goal with |- context [updateUI ?st w0] =>
    destruct (updateUI_frame st w0) as (_ & _ & _ & _ & F5 & F6);
    destruct (updateUI_shows st w0) as (_ & _ & S3 & S4);
    destruct (resetState_spec (updateUI st w0))
      as (_ & _ & _ & _ & _ & _ & R7 & R8 & R9 & R10 & _) end.
  cbn [fetch set_network progressText_textContent progressBar_value sent pending].
  rewrite R7, R8, R9, R10, F5, F6, S3, S4, Hs, Hp.
  do 4 (split; [reflexivity|]). intros ok d w2. split.
  - unfold checkProgress_cleaned, checkProgress_errors, checkProgress_catch.
    rewrite He. cbn [try_catch].
    assert (Hm : JsString.or_else (field_text (error data)) (js "Error checking progress")
                 = field_text (error data)).
    { unfold field_truthy, field_text in *. destruct (error data); [|discriminate].
      unfold JsString.or_else. now rewrite He. }
    rewrite Hm. apply showError_spec.
  - destruct (checkProgress_cleaned_frame data (Response ok d) w2) as (H1 & _ & H3).
    auto.
Qed.

Lemma completion_with_error_witness :
  let data := {| progress := None; transcription := None;
                 finished := true; error := Some (js "boom") |} in
  sent (checkProgress_response (Response true data) blank) = [PostCleanup] /\
  shows_error (js "boom") (checkProgress_cleaned data (Response true data) blank).
Proof.
  cbv zeta.
  destruct (completion_with_error blank
              {| progress := None; transcription := None;
                 finished := true; error := Some (js "boom") |} eq_refl eq_refl)
    as (_ & _ & H3 & _ & H5).
  split; [exact H3|]. apply H5.
Defined.

Lemma display_kept_refl (w : world) : display_kept w w.
Proof. unfold display_kept. tauto. Qed.

Lemma display_kept_trans (w1 w2 w3 : world) :
  display_kept w1 w2 -> display_kept w2 w3 -> display_kept w1 w3.
Proof. unfold display_kept. tauto. Qed.

Lemma display_kept_eq (w w' : world) :
  transcriptionOutput_value w' = transcriptionOutput_value w ->
  progressText_color w' = progressText_color w ->
  progressBar_value w' = progressBar_value w -> display_kept w w'.
Proof. unfold display_kept. intros -> -> ->. tauto. Qed.

Lemma bar_ok_or_else (p : number) : nonneg p -> bar_ok (Number.or_else p (lit 0)).
Proof.
  unfold Number.or_else. destruct p as [q|s|]; simpl; intros H.
  - destruct (negb (is_zero q)); [exact H|apply Qle_refl].
  - exact H.
  - apply Qle_refl.
Qed.

Lemma display_kept_updateUI (st : ui_state) (w : world) :
  nonneg (ui_progress st) -> display_kept w (updateUI st w).
Proof.
  intros Hn. destruct (updateUI_output st w) as (Ho & Hc).
  destruct (updateUI_shows st w) as (_ & _ & Hb & _).
  unfold display_kept. rewrite Ho, Hc, Hb. repeat split; auto.
  - intros H. destruct (field_truthy (ui_transcription st)) eqn:E; [|exact H].
    unfold field_truthy, field_text in *. destruct (ui_transcription st) as [t|]; [|discriminate].
    destruct t; [discriminate|discriminate].
  - intros _. now apply bar_ok_or_else.
Qed.

Lemma display_kept_resetState (w : world) : display_kept w (resetState w).
Proof.
  destruct (resetState_spec w) as (_ & _ & _ & _ & _ & _ & _ & _ & Hb & _ & Hc).
  apply display_kept_eq; auto.
  unfold resetState. cbn. destruct (progressInterval w); reflexivity.
Qed.

Lemma display_kept_showError (message : str) (w : world) :
  display_kept w (showError message w).
Proof.
  destruct (showError_spec message w) as ((_ & Hc & _) & _ & _ & _ & _ & Hb).
  unfold display_kept. rewrite Hc, Hb. repeat split; auto.
  unfold showError, resetState. cbn. destruct (progressInterval w); auto.
Qed.

Lemma display_kept_start (w : world) : display_kept w (startProgressChecking w).
Proof.
  apply display_kept_eq; unfold startProgressChecking;
    destruct (progressInterval w); reflexivity.
Qed.

Lemma display_kept_errors (data : report) (w : world) :
  display_kept w (try_catch (checkProgress_errors data w) checkProgress_catch).
Proof.
  unfold checkProgress_errors, checkProgress_catch.
  destruct (field_truthy (error data)); cbn [try_catch];
    [apply display_kept_showError|apply display_kept_refl].
Qed.

Lemma display_kept_resume (k : continuation) (r : settled) (w : world) :
  display_kept w (resume k r w).
Proof.
  destruct k; cbn [resume].
  - unfold handleTranscription_response, handleTranscription_catch.
    destruct r as [m|[|] data]; cbn [try_catch negb];
      [apply display_kept_showError|apply display_kept_start|apply display_kept_showError].
  - unfold checkProgress_response.
    destruct r as [m|[|] data]; cbn [negb];
      [apply display_kept_showError| |apply display_kept_showError].
    set (w0 := if field_truthy (progress data) then _ else w).
    assert (H0 : display_kept w w0).
    { subst w0. destruct (field_truthy (progress data)); [|apply display_kept_refl].
      apply display_kept_updateUI. apply parseProgress_is_nonneg. }
    apply (display_kept_trans _ _ _ H0).
    destruct (completion_signal data); [|apply display_kept_errors].
    cbn [try_catch].
    match goal with |- display_kept _ (fetch _ _ (resetState ?u)) =>
      apply display_kept_trans with u;
        [apply display_kept_updateUI; now apply nonneg_lit|];
      apply display_kept_trans with (resetState u);
        [apply display_kept_resetState|now apply display_kept_eq]
    end.
  - unfold checkProgress_cleaned. destruct r as [m|ok d];
      [apply display_kept_showError|apply display_kept_errors].
  - apply display_kept_refl.
Qed.

Lemma display_kept_click (w : world) : display_kept w (click w).
Proof.
  unfold click. destruct (transcribeButton_disabled w); [apply display_kept_refl|].
  unfold on_click.
  destruct (negb (JsString.truthy (trim (urlInput_value w)))); [apply display_kept_showError|].
  destruct (negb (includes (js "youtube.com/") (trim (urlInput_value w))) &&
            negb (includes (js "youtu.be/") (trim (urlInput_value w))));
    [apply display_kept_showError|].
  unfold handleTranscription.
  match goal with |- display_kept _ (fetch _ _ ?u) =>
    apply display_kept_trans with u; [|now apply display_kept_eq]
  end.
  apply display_kept_trans with (set_isTranscribing true w);
    [now apply display_kept_eq|].
  apply display_kept_updateUI. now apply nonneg_lit.
Qed.

Lemma display_kept_step (w w' : world) : step w w' -> display_kept w w'.
Proof.
  intros Hs. destruct Hs.
  - now apply display_kept_eq.
  - apply display_kept_click.
  - unfold on_keypress.
    destruct (JsString.eqb key (js "Enter") && negb (isTranscribing w));
      [apply display_kept_click|apply display_kept_refl].
  - now apply display_kept_eq.
  - eapply display_kept_trans; [|apply display_kept_resume]. now apply display_kept_eq.
  - unfold on_beforeunload. destruct (isTranscribing w);
      [now apply display_kept_eq|apply display_kept_refl].
Qed.

(** X12.  No step of the event loop puts [NaN] or a negative value on the
    progress bar. *)
Theorem progress_bar_never_nan (w w' : world) :
  step w w' -> bar_ok (progressBar_value w) -> bar_ok (progressBar_value w').
Proof. intros Hs. apply (display_kept_step _ _ Hs). Qed.

Lemma progress_bar_never_nan_witness :
  bar_ok (progressBar_value (click demo_form)).
Proof.
  apply (progress_bar_never_nan demo_form (click demo_form) (step_click demo_form)).
  simpl. apply Qle_refl.
Defined.

(** X13.  No step of the event loop empties a transcription that is shown:
    errors, resets and new submissions leave it in place. *)
Theorem transcription_never_erased (w w' : world) :
  step w w' ->
  transcriptionOutput_value w <> [] -> transcriptionOutput_value w' <> [].
Proof. intros Hs. apply (display_kept_step _ _ Hs). Qed.

Lemma transcription_never_erased_witness :
  transcriptionOutput_value
    (click (set_transcriptionOutput_value (js "hello") blank)) <> [].
Proof.
  apply (transcription_never_erased _ _
           (step_click (set_transcriptionOutput_value (js "hello") blank))).
  discriminate.
Defined.

(** X14.  The red colour of the progress text is never taken back: once
    an error has been shown, every later message is shown in red. *)
Theorem error_colour_never_reset (w w' : world) :
  step w w' ->
  progressText_color w = js "red" -> progressText_color w' = js "red".
Proof. intros Hs. apply (display_kept_step _ _ Hs). Qed.

Lemma error_colour_never_reset_witness :
  let w := set_form (js "https://youtu.be/abc") None (showError (js "boom") blank) in
  progressText_textContent (click w) = js "Starting transcription..." /\
  progressText_color (click w) = js "red".
Proof.
  cbv zeta. split; [vm_compute; reflexivity|].
  apply (error_colour_never_reset _ _ (step_click _)). reflexivity.
Defined.

Lemma network_step_same (w w' : world) :
  sent w' = sent w -> pending w' = pending w -> network_step w w'.
Proof. left. auto. Qed.

Lemma network_step_errors (data : report) (w : world) :
  network_step w (try_catch (checkProgress_errors data w) checkProgress_catch).
Proof.
  destruct (checkProgress_errors_frame data w) as (H1 & H2 & _).
  now apply network_step_same.
Qed.

Lemma network_step_showError (message : str) (w : world) :
  network_step w (showError message w).
Proof.
  destruct (showError_spec message w) as (_ & _ & _ & H1 & H2 & _).
  now apply network_step_same.
Qed.

Lemma network_step_resume (k : continuation) (r : settled) (w : world) :
  network_step w (resume k r w).
Proof.
  destruct k; cbn [resume].
  - unfold handleTranscription_response, handleTranscription_catch.
    destruct r as [m|[|] data]; cbn [try_catch negb];
      try apply network_step_showError.
    apply network_step_same; unfold startProgressChecking;
      destruct (progressInterval w); reflexivity.
  - unfold checkProgress_response.
    destruct r as [m|[|] data]; cbn [negb]; try apply network_step_showError.
    set (w0 := if field_truthy (progress data) then _ else w).
    assert (Hf : sent w0 = sent w /\ pending w0 = pending w).
    { subst w0. destruct (field_truthy (progress data)); [|split; reflexivity].
      match goal with |- context [updateUI ?st w] =>
        destruct (updateUI_frame st w) as (_ & _ & _ & _ & -> & ->) end.
      split; reflexivity. }
    destruct Hf as [Hs Hp].
    destruct (completion_signal data).
    + cbn [try_catch]. right. exists PostCleanup, (K_cleanup data).
      match goal with |- context [updateUI ?st w0] =>
        destruct (updateUI_frame st w0) as (_ & _ & _ & _ & F5 & F6);
        destruct (resetState_spec (updateUI st w0))
          as (_ & _ & _ & _ & _ & _ & R7 & R8 & _) end.
      cbn [fetch set_network sent pending]. rewrite R7, R8, F5, F6, Hs, Hp.
      repeat split.
    + destruct (checkProgress_errors_frame data w0) as (H1 & H2 & _).
      apply network_step_same; congruence.
  - destruct (checkProgress_cleaned_frame data r w) as (H1 & H2 & _).
    now apply network_step_same.
  - now apply network_step_same.
Qed.

Lemma network_step_click (w : world) : network_step w (click w).
Proof.
  unfold click. destruct (transcribeButton_disabled w); [now apply network_step_same|].
  unfold on_click.
  destruct (trim (urlInput_value w)) as [|c url] eqn:E; cbn [JsString.truthy negb];
    [apply network_step_showError|].
  destruct (includes (js "youtube.com/") (c :: url)) eqn:E1;
    destruct (includes (js "youtu.be/") (c :: url)) eqn:E2; cbn [negb andb];
    try apply network_step_showError;
    (right; eexists _, K_transcribe; split; [reflexivity|]; split; [reflexivity|];
     split; [split; [discriminate|auto]|];
     unfold JsString.or_else; destruct (JsString.truthy (field_text (model_checked w))) eqn:Et;
     [destruct (field_text (model_checked w)); discriminate|discriminate]).
Qed.

Lemma network_step_step (w w' : world) :
  step w w' ->
  (sent w' = sent w /\ (List.length (pending w') <= List.length (pending w))%nat) \/
  (exists r, sent w' = r :: sent w /\ request_ok r /\
             (List.length (pending w') <= S (List.length (pending w)))%nat).
Proof.
  assert (Hgen : forall a b, network_step a b ->
    (sent b = sent a /\ (List.length (pending b) <= List.length (pending a))%nat) \/
    (exists r, sent b = r :: sent a /\ request_ok r /\
               (List.length (pending b) <= S (List.length (pending a)))%nat)).
  { intros a b [[-> ->]|(r & k & -> & -> & Hr)]; [left; auto|].
    right. exists r. cbn [List.length]. auto. }
  intros Hs. destruct Hs.
  - left. auto.
  - apply Hgen, network_step_click.
  - unfold on_keypress.
    destruct (JsString.eqb key (js "Enter") && negb (isTranscribing w));
      [apply Hgen, network_step_click|left; auto].
  - right. exists GetProgress. cbn. auto.
  - pose proof (network_step_resume k r (set_network (sent w) (before ++ after) w)) as Hn.
    assert (Hlen : List.length (pending w) = S (List.length (before ++ after))).
    { rewrite H, !length_app. cbn [List.length]. lia. }
    destruct Hn as [[Hs Hp]|(r' & k' & Hs & Hp & Hr)]; cbn [set_network sent pending] in Hs, Hp.
    + left. rewrite Hs, Hp, Hlen. auto.
    + right. exists r'. rewrite Hs, Hp, Hlen. cbn [List.length]. auto.
  - unfold on_beforeunload. destruct (isTranscribing w); [|left; auto].
    right. exists PostCleanup. cbn. auto.
Qed.

(** X9.  Every step of the event loop issues at most one request and drops
    none from the log; in every reachable state no more functions are
    suspended than requests were issued. *)
Theorem one_request_per_step :
  (forall w w', step w w' ->
                sent w' = sent w \/ exists r, sent w' = r :: sent w) /\
  (forall w, reachable w ->
             (List.length (pending w) <= List.length (sent w))%nat).
Proof.
  split.
  - intros w w' Hs. destruct (network_step_step _ _ Hs) as [[H _]|(r & H & _)]; eauto.
  - intros w (w0 & (_ & _ & _ & Hs0 & Hp0) & Hsteps).
    apply clos_rt_rtn1 in Hsteps.
    induction Hsteps as [|y z Hyz _ IH]; [rewrite Hs0, Hp0; auto|].
    destruct (network_step_step _ _ Hyz) as [[-> Hl]|(r & -> & _ & Hl)];
      cbn [List.length]; lia.
Qed.

Lemma one_request_per_step_witness :
  (List.length (pending demo_ticked) <= List.length (sent demo_ticked))%nat.
Proof.
  destruct one_request_per_step as [_ H]. exact (H demo_ticked demo_ticked_reachable).
Defined.

(** X10.  Every [POST /transcribe] ever issued carries a non-empty URL
    that contains [youtube.com/] or [youtu.be/], and a non-empty model. *)
Theorem transcribe_requests_valid (w : world) (url model : str) :
  reachable w -> In (PostTranscribe url model) (sent w) ->
  valid_url url /\ model <> [].
Proof.
  intros (w0 & (_ & _ & _ & Hs0 & _) & Hsteps). apply clos_rt_rtn1 in Hsteps.
  induction Hsteps as [|y z Hyz _ IH]; [rewrite Hs0; intros []|].
  destruct (network_step_step _ _ Hyz) as [[-> _]|(r & -> & Hr & _)]; [exact IH|].
  intros [->|Hin]; [exact Hr|now apply IH].
Qed.

Lemma transcribe_requests_valid_witness :
  valid_url (js "https://youtu.be/abc") /\ js "base" <> [].
Proof.
  apply (transcribe_requests_valid demo_ticked _ _ demo_ticked_reachable).
  vm_compute. right. left. reflexivity.
Defined.

Lemma showError_idle (message : str) (w : world) :
  sent w = [] -> timers w = [] -> pending w = [] ->
  transcribe_first (showError message w).
Proof.
  intros Hs Ht Hp. left.
  destruct (showError_spec message w) as ((_ & _ & Hi & _) & Hts & _ & -> & -> & _).
  destruct (resetState_spec w) as (_ & _ & _ & _ & Hr & _).
  rewrite Hts, Hr, Ht. repeat split; auto. now destruct (progressInterval w).
Qed.

Lemma transcribe_first_click (w : world) :
  sent w = [] -> isTranscribing w = false -> timers w = [] -> pending w = [] ->
  transcribe_first (click w).
Proof.
  intros Hs Hi Ht Hp. unfold click.
  destruct (transcribeButton_disabled w); [left; auto|]. unfold on_click.
  destruct (negb (JsString.truthy (trim (urlInput_value w)))); [now apply showError_idle|].
  destruct (negb (includes (js "youtube.com/") (trim (urlInput_value w))) &&
            negb (includes (js "youtu.be/") (trim (urlInput_value w))));
    [now apply showError_idle|].
  right. exists [], (trim (urlInput_value w)),
    (JsString.or_else (field_text (model_checked w)) (js "base")).
  cbn. now rewrite Hs.
Qed.

Lemma transcribe_first_step (w w' : world) :
  step w w' -> transcribe_first w -> transcribe_first w'.
Proof.
  intros Hstep [(Hs & Hi & Ht & Hp)|(l & url & model & Hl)].
  - destruct Hstep.
    + left. auto.
    + now apply transcribe_first_click.
    + unfold on_keypress.
      destruct (JsString.eqb key (js "Enter") && negb (isTranscribing w));
        [now apply transcribe_first_click|left; auto].
    + rewrite Ht in H. destruct H.
    + rewrite Hp in H. now destruct before.
    + unfold on_beforeunload. rewrite Hi. left. auto.
  - right. destruct (network_step_step _ _ Hstep) as [[-> _]|(r & -> & _)].
    + now exists l, url, model.
    + exists (r :: l), url, model. now rewrite Hl.
Qed.

(** X16.  In every reachable state the oldest request, if there is one, is
    a [POST /transcribe]: no status or cleanup request is ever issued before
    a transcription has been submitted. *)
Theorem first_request_is_transcribe (w : world) :
  reachable w ->
  sent w = [] \/ exists l url model, sent w = l ++ [PostTranscribe url model].
Proof.
  intros (w0 & (Hi & _ & Ht & Hs & Hp) & Hsteps).
  assert (H : transcribe_first w).
  { apply clos_rt_rtn1 in Hsteps.
    induction Hsteps as [|y z Hyz _ IH]; [left; auto|].
    eapply transcribe_first_step; eauto. }
  destruct H as [(H & _)|H]; auto.
Qed.

Lemma first_request_is_transcribe_witness :
  sent demo_ticked = [] \/
  exists l url model, sent demo_ticked = l ++ [PostTranscribe url model].
Proof. exact (first_request_is_transcribe demo_ticked demo_ticked_reachable). Defined.
